(** * chromagnon: the local-storage reader of [src/storage.ts]

    A shallow embedding of the key codec ([keyFromUrl], [unpackValue], the
    [split] of [readAll]) and of the store reader ([read], [readAll],
    [asyncIterable]) of [src/storage.ts], together with the properties of
    the key layout, of the decoding and of the release of the store handle.

    JavaScript strings are sequences of UTF-16 code units, Node buffers are
    sequences of bytes; [Buffer.from(string)] and [buffer.toString()] are
    the UTF-8 encoder and decoder between the two.  [url.parse] belongs to
    the platform and is a parameter of the development. *)

From Stdlib Require Import NArith Lia String Ascii.
From stdpp Require Import gmap list sorting.

Local Open Scope N_scope.

(** ** JavaScript strings *)

Module JS.

(** A string is its list of UTF-16 code units. *)
Definition jsstring := list N.

(** An ASCII literal of the source, as code units. *)
Definition lit (s : string) : jsstring :=
  List.map N_of_ascii (list_ascii_of_string s).

Fixpoint eqb (s t : jsstring) : bool :=
  match s, t with
  | [], [] => true
  | c :: s', d :: t' => (c =? d) && eqb s' t'
  | _, _ => false
  end.

(** A string is falsy exactly when it is empty; [null] and [undefined]
    (here [None]) are falsy too. *)
Definition truthy (o : option jsstring) : bool :=
  match o with
  | Some (_ :: _) => true
  | _ => false
  end.

(** [s.slice(1)]: the string without its first code unit. *)
Definition slice1 (s : jsstring) : jsstring := List.tl s.

Fixpoint starts_with (sep s : jsstring) : bool :=
  match sep, s with
  | [], _ => true
  | c :: sep', d :: s' => (c =? d) && starts_with sep' s'
  | _ :: _, [] => false
  end.

(** [s.split(sep)] for a non-empty separator: the pieces between the
    successive occurrences of [sep], found from left to right.  [skip]
    counts the code units of a matched separator still to be passed,
    [acc] is the current piece, reversed. *)
Fixpoint split_from (sep : jsstring) (skip : nat) (acc s : jsstring)
  : list jsstring :=
  match s with
  | [] => [List.rev acc]
  | c :: s' =>
      match skip with
      | S n => split_from sep n acc s'
      | O =>
          if starts_with sep s
          then List.rev acc :: split_from sep (Nat.pred (List.length sep)) [] s'
          else split_from sep O (c :: acc) s'
      end
  end.

Definition split (sep s : jsstring) : list jsstring :=
  split_from sep O [] s.

(** ASCII lower-casing of one code unit and of a string. *)
Definition lower_unit (c : N) : N :=
  if (65 <=? c) && (c <=? 90) then c + 32 else c.

Definition to_lower (s : jsstring) : jsstring := List.map lower_unit s.

(** Surrogates, and strings in which every surrogate is paired. *)
Definition is_high (c : N) : bool := (0xD800 <=? c) && (c <=? 0xDBFF).
Definition is_low (c : N) : bool := (0xDC00 <=? c) && (c <=? 0xDFFF).

Fixpoint well_formed (s : jsstring) : bool :=
  match s with
  | [] => true
  | c :: rest =>
      if is_high c then
        match rest with
        | d :: rest' => is_low d && well_formed rest'
        | [] => false
        end
      else negb (is_low c) && (c <? 0x10000) && well_formed rest
  end.

End JS.

(** ** Buffers and UTF-8 *)

Module Buffer.

Import JS.

(** A buffer is its list of bytes. *)
Definition Bytes := list N.

Definition replacement : list N := [0xEF; 0xBF; 0xBD].

Definition enc2 (c : N) : list N := [0xC0 + c / 64; 0x80 + c mod 64].

Definition enc3 (c : N) : list N :=
  [0xE0 + c / 4096; 0x80 + (c / 64) mod 64; 0x80 + c mod 64].

Definition enc4 (c : N) : list N :=
  [0xF0 + c / 262144; 0x80 + (c / 4096) mod 64;
   0x80 + (c / 64) mod 64; 0x80 + c mod 64].

(** The code point of a surrogate pair. *)
Definition pair_point (hi lo : N) : N :=
  0x10000 + (hi - 0xD800) * 1024 + (lo - 0xDC00).

(** [Buffer.from(s)]: the UTF-8 encoding of [s]; a surrogate that is
    not part of a pair is encoded as U+FFFD (and so is a number above
    0xFFFF, which is no code unit). *)
Fixpoint from (s : jsstring) : Bytes :=
  match s with
  | [] => []
  | c :: rest =>
      if c <? 0x80 then c :: from rest
      else if c <? 0x800 then enc2 c ++ from rest
      else if is_high c then
        match rest with
        | d :: rest' =>
            if is_low d then enc4 (pair_point c d) ++ from rest'
            else replacement ++ from rest
        | [] => replacement
        end
      else if is_low c then replacement ++ from rest
      else if c <? 0x10000 then enc3 c ++ from rest
      else replacement ++ from rest
  end.

Definition is_cont (b : N) : bool := (0x80 <=? b) && (b <=? 0xBF).

(** The second byte allowed after the lead byte of a three-byte and of a
    four-byte sequence. *)
Definition second3 (b0 b1 : N) : bool :=
  if b0 =? 0xE0 then (0xA0 <=? b1) && (b1 <=? 0xBF)
  else if b0 =? 0xED then (0x80 <=? b1) && (b1 <=? 0x9F)
  else is_cont b1.

Definition second4 (b0 b1 : N) : bool :=
  if b0 =? 0xF0 then (0x90 <=? b1) && (b1 <=? 0xBF)
  else if b0 =? 0xF4 then (0x80 <=? b1) && (b1 <=? 0x8F)
  else is_cont b1.

Definition dec2 (b0 b1 : N) : N := (b0 - 0xC0) * 64 + (b1 - 0x80).

Definition dec3 (b0 b1 b2 : N) : N :=
  (b0 - 0xE0) * 4096 + (b1 - 0x80) * 64 + (b2 - 0x80).

Definition dec4 (b0 b1 b2 b3 : N) : N :=
  (b0 - 0xF0) * 262144 + (b1 - 0x80) * 4096 + (b2 - 0x80) * 64 + (b3 - 0x80).

(** The two code units of a code point above U+FFFF. *)
Definition units_of_point (p : N) : jsstring :=
  [0xD800 + (p - 0x10000) / 1024; 0xDC00 + (p - 0x10000) mod 1024].

Definition fffd : N := 0xFFFD.

(** [buf.toString()]: the UTF-8 decoding of [buf].  An ill-formed
    sequence yields one U+FFFD for its longest prefix that starts a
    well-formed sequence (or for its single first byte), and decoding
    resumes right after that prefix. *)
Fixpoint toString (bs : Bytes) : jsstring :=
  match bs with
  | [] => []
  | b0 :: t1 =>
      if b0 <? 0x80 then b0 :: toString t1
      else if (0xC2 <=? b0) && (b0 <=? 0xDF) then
        match t1 with
        | b1 :: t2 =>
            if is_cont b1 then dec2 b0 b1 :: toString t2
            else fffd :: toString t1
        | [] => [fffd]
        end
      else if (0xE0 <=? b0) && (b0 <=? 0xEF) then
        match t1 with
        | b1 :: t2 =>
            if second3 b0 b1 then
              match t2 with
              | b2 :: t3 =>
                  if is_cont b2 then dec3 b0 b1 b2 :: toString t3
                  else fffd :: toString t2
              | [] => [fffd]
              end
            else fffd :: toString t1
        | [] => [fffd]
        end
      else if (0xF0 <=? b0) && (b0 <=? 0xF4) then
        match t1 with
        | b1 :: t2 =>
            if second4 b0 b1 then
              match t2 with
              | b2 :: t3 =>
                  if is_cont b2 then
                    match t3 with
                    | b3 :: t4 =>
                        if is_cont b3
                        then units_of_point (dec4 b0 b1 b2 b3) ++ toString t4
                        else fffd :: toString t3
                    | [] => [fffd]
                    end
                  else fffd :: toString t2
              | [] => [fffd]
              end
            else fffd :: toString t1
        | [] => [fffd]
        end
      else fffd :: toString t1
  end.

(** The byte-wise order of the store's keys: the first differing byte
    decides, and a proper prefix comes first. *)
Fixpoint leb (a b : Bytes) : bool :=
  match a, b with
  | [], _ => true
  | _ :: _, [] => false
  | x :: a', y :: b' => (x <? y) || ((x =? y) && leb a' b')
  end.

End Buffer.

(** ** The store and the effects of one operation *)

Import JS Buffer.

(** The errors an operation can end with: the [Error("host is required")]
    of [keyFromUrl], the not-found error of [db.get], any other error
    the store reports (on open, get, next or end), and what
    [urllib.parse] throws on a URL it rejects. *)
Inductive Error : Type :=
| HostRequired
| NotFound
| StoreError
| UrlError.

Inductive result (A : Type) : Type :=
| Ok (a : A)
| Throw (e : Error).
Arguments Ok {A} a.
Arguments Throw {A} e.

(** What [url.parse] returns, as far as [keyFromUrl] reads it; [None] is
    [null]. *)
Record UrlObject : Type := {
  protocol : option jsstring;
  host : option jsstring;
}.

(** An open store: its records, and the failures it may report during
    the operation ([db_next_fault = Some n]: the call of [iterator.next]
    after [n] entries reports an error). *)
Record LevelDb : Type := {
  db_records : gmap (list N) (list N);
  db_get_fault : bool;
  db_next_fault : option nat;
  db_end_fault : bool;
}.

(** The calls made on the store. *)
Inductive Event : Type :=
| OpenDb
| DbGet (key : Bytes)
| DbIterator (gte lte : Bytes)
| IterNext
| IterEnd
| DbClose.

(** An awaited computation: the calls it made, in order, and how it
    completed. *)
Definition Eff (A : Type) : Type := (list Event * result A)%type.

Definition ret {A} (a : A) : Eff A := ([], Ok a).

Definition lift {A} (r : result A) : Eff A := ([], r).

Definition call {A} (ev : Event) (r : result A) : Eff A := ([ev], r).

Definition bind {A B} (m : Eff A) (f : A -> Eff B) : Eff B :=
  match m with
  | (t, Ok a) => let '(t', r) := f a in (t ++ t', r)
  | (t, Throw e) => (t, Throw e)
  end.

(** [try { m } finally { h }]: [h] runs however [m] completed, and an
    error of [h] replaces the completion of [m]. *)
Definition finally {A} (m : Eff A) (h : Eff unit) : Eff A :=
  let '(t, r) := m in
  let '(t', r') := h in
  (t ++ t', match r' with Throw e => Throw e | Ok _ => r end).

Notation "'await' x ':=' m 'in' k" := (bind m (fun x => k))
  (at level 10, x name, m at level 100, k at level 200).

(** What one call of [iterator.next] reports. *)
Inductive NextResult : Type :=
| NextEntry (key value : Bytes)
| NextError (e : Error).

Definition key_le (r1 r2 : Bytes * Bytes) : Prop := leb r1.1 r2.1.

Definition in_range (gte lte : Bytes) (r : Bytes * Bytes) : Prop :=
  leb gte r.1 && leb r.1 lte.

Definition with_fault (fault : option nat) (l : list NextResult)
  : list NextResult :=
  match fault with
  | Some n => take n l ++ [NextError StoreError]
  | None => l
  end.

(** [db.iterator({gte, lte})]: the records with [gte <= key <= lte], in
    ascending byte-wise key order. *)
Definition db_iterator (db : LevelDb) (gte lte : Bytes) : list NextResult :=
  with_fault (db_next_fault db)
    ((fun r => NextEntry r.1 r.2)
       <$> merge_sort key_le (filter (in_range gte lte) (map_to_list (db_records db)))).

(** [db.get(key)]. *)
Definition db_get (db : LevelDb) (key : Bytes) : Eff Bytes :=
  call (DbGet key)
    (if db_get_fault db then Throw StoreError
     else match db_records db !! key with
          | Some v => Ok v
          | None => Throw NotFound
          end).

(** [db.close()]. *)
Definition db_close : Eff unit := call DbClose (Ok tt).

(** [iterator.end(callback)], awaited. *)
Definition iterator_end (db : LevelDb) : Eff unit :=
  call IterEnd (if db_end_fault db then Throw StoreError else Ok tt).

(** ** Async generators

    A started generator, from one suspension to the next: it returns,
    throws, or yields a value after the calls [t]; at a [yield] it holds
    what [next()] resumes and what [return()] runs (the pending [finally]
    blocks). *)
Inductive Gen (A : Type) : Type :=
| Done (t : list Event)
| Failed (t : list Event) (e : Error)
| Yield (t : list Event) (a : A) (next : Gen A) (on_return : Eff unit).
Arguments Done {A} t.
Arguments Failed {A} t e.
Arguments Yield {A} t a next on_return.

(** The completion of a generator body that ends through a [finally]. *)
Definition complete {A} (m : Eff unit) : Gen A :=
  match m with
  | (t, Ok _) => Done t
  | (t, Throw e) => Failed t e
  end.

Definition after {A} (t0 : list Event) (g : Gen A) : Gen A :=
  match g with
  | Done t => Done (t0 ++ t)
  | Failed t e => Failed (t0 ++ t) e
  | Yield t a next r => Yield (t0 ++ t) a next r
  end.

(** The caller of a generator: it calls [next()] or [return()]. *)
Inductive Cmd : Type :=
| CallNext
| CallReturn.

Inductive GenState (A : Type) : Type :=
| NotStarted (g : Gen A)
| Suspended (next : Gen A) (on_return : Eff unit)
| Completed.
Arguments NotStarted {A} g.
Arguments Suspended {A} next on_return.
Arguments Completed {A}.

(** How the promise of one call settles. *)
Inductive Settled (A : Type) : Type :=
| Yielded (a : A)
| Finished
| Rejected (e : Error).
Arguments Yielded {A} a.
Arguments Finished {A}.
Arguments Rejected {A} e.

(** What happens, in order: calls on the store, and promises settling
    for the caller. *)
Inductive Obs (A : Type) : Type :=
| Called (ev : Event)
| Settle (s : Settled A).
Arguments Called {A} ev.
Arguments Settle {A} s.

Definition resume {A} (g : Gen A) : list (Obs A) * GenState A :=
  match g with
  | Done t => ((Called <$> t) ++ [Settle Finished], Completed)
  | Failed t e => ((Called <$> t) ++ [Settle (Rejected e)], Completed)
  | Yield t a next r => ((Called <$> t) ++ [Settle (Yielded a)], Suspended next r)
  end.

(** One call on a generator.  [return()] on a generator that has not
    started, and any call on a completed one, run nothing. *)
Definition step {A} (st : GenState A) (c : Cmd) : list (Obs A) * GenState A :=
  match st, c with
  | NotStarted g, CallNext => resume g
  | Suspended next _, CallNext => resume next
  | Suspended _ r, CallReturn =>
      ((Called <$> r.1)
         ++ [Settle (match r.2 with Ok _ => Finished | Throw e => Rejected e end)],
       Completed)
  | NotStarted _, CallReturn => ([Settle Finished], Completed)
  | Completed, _ => ([Settle Finished], Completed)
  end.

Fixpoint run {A} (st : GenState A) (cs : list Cmd) : list (Obs A) * GenState A :=
  match cs with
  | [] => ([], st)
  | c :: cs' =>
      let '(o, st') := step st c in
      let '(o', st'') := run st' cs' in
      (o ++ o', st'')
  end.

(** ** storage.ts *)

Definition hostKeySeparator : jsstring := [0; 1].

(** [unpackValue]: [v.toString().slice(1)]. *)
Definition unpackValue (v : Bytes) : jsstring := slice1 (toString v).

(** [const [ , actualKey ] = key.toString().split(hostKeySeparator)]:
    the second piece, [None] ([undefined]) when there is none. *)
Definition actualKey (key : Bytes) : option jsstring :=
  split hostKeySeparator (toString key) !! 1%nat.

(** [asyncIterable]: one [iterator.next] per entry; [iterator.end] in the
    [finally], on return, on an error of [next] and on [return()]. *)
Fixpoint asyncIterable (db : LevelDb) (results : list NextResult)
  : Gen (Bytes * Bytes) :=
  match results with
  | [] => complete (finally (call IterNext (Ok tt)) (iterator_end db))
  | NextError e :: _ =>
      complete (finally (call IterNext (Throw e)) (iterator_end db))
  | NextEntry key value :: rest =>
      Yield [IterNext] (key, value) (asyncIterable db rest) (iterator_end db)
  end.

(** The [{key, value}] objects [readAll] yields. *)
Record Item : Type := {
  item_key : option jsstring;
  item_value : jsstring;
}.

(** The [for await] loop of [readAll] inside its [try]/[finally]: each
    entry is decoded and yielded; [return()] at the [yield] first returns
    the inner generator, then closes the store. *)
Fixpoint readAll_loop (g : Gen (Bytes * Bytes)) : Gen Item :=
  match g with
  | Done t => complete (finally (t, Ok tt) db_close)
  | Failed t e => complete (finally (t, Throw e) db_close)
  | Yield t (key, value) next on_return =>
      Yield t {| item_key := actualKey key; item_value := unpackValue value |}
        (readAll_loop next) (finally on_return db_close)
  end.

Section LocalStorageExtractor.

(** [urllib.parse]. *)
Variable parse : jsstring -> UrlObject.

(** The outcome of [this.openDb()]. *)
Variable openDb : result LevelDb.

Definition keyFromUrl (url : jsstring) (key separator : option jsstring)
  : result Bytes :=
  let separator := default hostKeySeparator separator in
  let suffix := if truthy key then separator ++ default [] key else [] in
  let parsed := parse url in
  if negb (truthy (host parsed)) then Throw HostRequired
  else
    let protocol :=
      if negb (truthy (protocol parsed)) then lit "https:"
      else default [] (protocol parsed) in
    Ok (from (lit "_" ++ protocol ++ lit "//" ++ default [] (host parsed) ++ suffix)).

Definition read (url key : jsstring) : Eff jsstring :=
  await db := call OpenDb openDb in
  finally
    (await k := lift (keyFromUrl url (Some key) None) in
     await v := db_get db k in
     ret (unpackValue v))
    db_close.

Definition readAll (url : jsstring) : Gen Item :=
  match keyFromUrl url None None with
  | Throw e => Failed [] e
  | Ok start =>
      match keyFromUrl url (Some [1]) (Some []) with
      | Throw e => Failed [] e
      | Ok end_ =>
          match openDb with
          | Throw e => Failed [OpenDb] e
          | Ok db =>
              after [OpenDb; DbIterator start end_]
                (readAll_loop (asyncIterable db (db_iterator db start end_)))
          end
      end
  end.

End LocalStorageExtractor.

(** ** Notions used to state the properties *)

Definition ascii_unit (c : N) : Prop := c < 0x80.

(** The units a URL parser leaves in a scheme or host: ASCII other than
    NUL and SOH. *)
Definition plain_unit (c : N) : Prop := 2 <= c < 0x80.

(** The string [_<protocol>//<host>] of a parsed URL, with the default
    protocol of [keyFromUrl]. *)
Definition effective_protocol (u : UrlObject) : jsstring :=
  if truthy (protocol u) then default [] (protocol u) else lit "https:".

Definition origin (u : UrlObject) : jsstring :=
  lit "_" ++ effective_protocol u ++ lit "//" ++ default [] (host u).

(** A parsed URL with a host, whose protocol and host are plain and whose
    protocol has no slash. *)
Definition plain_url (u : UrlObject) : Prop :=
  truthy (host u) = true
  /\ Forall plain_unit (default [] (host u))
  /\ Forall (fun c => plain_unit c /\ c <> 47) (default [] (protocol u)).

Fixpoint has_sep (s : list N) : bool :=
  match s with
  | [] => false
  | c :: s' => starts_with hostKeySeparator s || has_sep s'
  end.

(** What a point lookup of [k] in an opened store completes with. *)
Definition lookup_result (db : LevelDb) (k : Bytes) : result jsstring :=
  if db_get_fault db then Throw StoreError
  else match db_records db !! k with
       | Some v => Ok (unpackValue v)
       | None => Throw NotFound
       end.

(** The values a generator yields when it is driven by [next()] alone. *)
Fixpoint yields {A} (g : Gen A) : list A :=
  match g with
  | Yield _ a next _ => a :: yields next
  | _ => []
  end.

(** A run of calls without a release. *)
Definition quiet (t : list Event) : Prop := (IterEnd ∉ t) /\ (DbClose ∉ t).

(** A run of calls that ends with the one release of the iterator and
    then the one release of the store. *)
Definition releases_once (t : list Event) : Prop :=
  exists pre, t = pre ++ [IterEnd; DbClose] /\ quiet pre.

(** A generator that releases both exactly once however it is left: at
    its return, at its error, and at [return()] from any [yield]. *)
Fixpoint managed {A} (g : Gen A) : Prop :=
  match g with
  | Done t => releases_once t
  | Failed t _ => releases_once t
  | Yield t _ next r => quiet t /\ r.1 = [IterEnd; DbClose] /\ managed next
  end.

Definition terminal {A} (s : Settled A) : Prop :=
  s = Finished \/ exists e, s = Rejected e.

(** What a caller observes of a scan that released its iterator and its
    store exactly once: the two releases, in this order, come right
    before a promise settles with the end or with an error; no release
    comes earlier and no call on the store comes later. *)
Definition released {A} (obs : list (Obs A)) : Prop :=
  exists pre s post,
    obs = pre ++ [Called IterEnd; Called DbClose; Settle s] ++ post
    /\ terminal s
    /\ (Called IterEnd ∉ pre) /\ (Called DbClose ∉ pre)
    /\ (forall ev, Called ev ∉ post).

(** ** The rest of storage.ts *)

(** The item [readAll] makes of one entry of the scan. *)
Definition item_of_entry (r : Bytes * Bytes) : Item :=
  {| item_key := actualKey r.1; item_value := unpackValue r.2 |}.

(** The entries a scan of [gte .. lte] finds when its iterator does not
    fail, and those it reaches before a failure of the iterator. *)
Definition scan_entries (db : LevelDb) (gte lte : Bytes) : list (Bytes * Bytes) :=
  merge_sort key_le (filter (in_range gte lte) (map_to_list (db_records db))).

Definition reached (db : LevelDb) (l : list (Bytes * Bytes))
  : list (Bytes * Bytes) :=
  match db_next_fault db with
  | Some n => take n l
  | None => l
  end.

(** The calls of [iterator.next] among what a caller observes, and the
    calls of [next()] the caller made. *)
Fixpoint next_calls {A} (obs : list (Obs A)) : nat :=
  match obs with
  | [] => O
  | Called IterNext :: o => S (next_calls o)
  | _ :: o => next_calls o
  end.

Fixpoint next_events (t : list Event) : nat :=
  match t with
  | [] => O
  | IterNext :: t' => S (next_events t')
  | _ :: t' => next_events t'
  end.

Fixpoint next_requests (cs : list Cmd) : nat :=
  match cs with
  | [] => O
  | CallNext :: cs' => S (next_requests cs')
  | CallReturn :: cs' => next_requests cs'
  end.

(** A generator that asks the iterator for at most one entry per
    resumption, and for none when it is returned. *)
Fixpoint lazy {A} (g : Gen A) : Prop :=
  match g with
  | Done t => (next_events t <= 1)%nat
  | Failed t _ => (next_events t <= 1)%nat
  | Yield t _ next r =>
      (next_events t <= 1)%nat /\ next_events r.1 = O /\ lazy next
  end.

Definition lazy_state {A} (st : GenState A) : Prop :=
  match st with
  | NotStarted g => lazy g
  | Suspended next r => lazy next /\ next_events r.1 = O
  | Completed => True
  end.

(** A generator that ends with the error [e] however it is left, after
    the two releases. *)
Fixpoint fails_with {A} (e : Error) (g : Gen A) : Prop :=
  match g with
  | Done _ => False
  | Failed t e' => e' = e /\ exists pre, t = pre ++ [IterEnd; DbClose]
  | Yield _ _ next r => r = ([IterEnd; DbClose], Throw e) /\ fails_with e next
  end.

(** A row of [SELECT key, value FROM ItemTable]. *)
Record Row : Type := {
  row_key : jsstring;
  row_value : Bytes;
}.

(** A better-sqlite3 database: the rows of [ItemTable], and the failure
    it may report ([sql_fault = Some n]: the statement throws after [n]
    rows; with [n = 0] this is also a [prepare] that throws). *)
Record Database : Type := {
  item_table : list Row;
  sql_fault : option nat;
}.

(** What stepping [db.prepare(...).iterate()] gives, row after row. *)
Definition sql_steps (db : Database) : list (result Row) :=
  match sql_fault db with
  | Some n => (Ok <$> take n (item_table db)) ++ [Throw StoreError]
  | None => Ok <$> item_table db
  end.

(** The [for (const row of rows) yield row] of [readAllFromDb] inside its
    [try]/[finally]: [db.close()] at the end of the rows, at an error and
    at [return()]. *)
Fixpoint rows_loop (steps : list (result Row)) : Gen Row :=
  match steps with
  | [] => complete (finally (ret tt) db_close)
  | Throw e :: _ => complete (finally (lift (Throw e)) db_close)
  | Ok row :: rest => Yield [] row (rows_loop rest) (finally (ret tt) db_close)
  end.

Definition readAllFromDb (db : Database) : Gen Row := rows_loop (sql_steps db).

(** What a caller observes of a generator whose only call is its one
    [db.close()], right before a promise settles with the end or with an
    error. *)
Definition closed_once {A} (obs : list (Obs A)) : Prop :=
  exists pre s post,
    obs = pre ++ [Called DbClose; Settle s] ++ post
    /\ terminal s
    /\ (forall ev, Called ev ∉ pre)
    /\ (forall ev, Called ev ∉ post).

(** ** [urllib.parse] that throws *)

(** [keyFromUrl] above starts from the object [urllib.parse(url)] has
    returned.  The call (line 38) can also throw, and [keyFromUrl] has no
    [try] around it: for a parser that returns an object or throws, this
    is the whole function. *)
Definition keyFromUrl_parsing (url_parse : jsstring -> result UrlObject)
    (url : jsstring) (key separator : option jsstring) : result Bytes :=
  match url_parse url with
  | Throw e => Throw e
  | Ok parsed => keyFromUrl (fun _ => parsed) url key separator
  end.

(** ** The calls of a scan and the calls that are awaited *)







(** ** A sample profile *)

Module Sample.

(** A stand-in for [url.parse] on a few URLs: scheme and host are
    lower-cased, the path is dropped; any other input has no host. *)
Definition parse (url : jsstring) : UrlObject :=
  let u := to_lower url in
  if JS.eqb u (lit "https://a.com") || JS.eqb u (lit "https://a.com/page")
  then {| protocol := Some (lit "https:"); host := Some (lit "a.com") |}
  else if JS.eqb u (lit "http://a.com")
  then {| protocol := Some (lit "http:"); host := Some (lit "a.com") |}
  else if JS.eqb u (lit "https://b.com")
  then {| protocol := Some (lit "https:"); host := Some (lit "b.com") |}
  else if JS.eqb u (lit "//user@a.com")
  then {| protocol := None; host := Some (lit "a.com") |}
  else {| protocol := None; host := None |}.

Definition origin_a : Bytes := from (lit "_https://a.com").
Definition origin_b : Bytes := from (lit "_https://b.com").

Definition records : gmap (list N) (list N) :=
  <[origin_a ++ [0; 1] ++ from (lit "theme") := 1 :: from (lit "dark")]>
  (<[origin_a ++ [0; 1] ++ from (lit "lang") := 1 :: from (lit "en")]>
  (<[origin_b ++ [0; 1] ++ from (lit "theme") := 1 :: from (lit "light")]>
  (<[origin_a ++ [0; 1] ++ from (lit "empty") := []]>
  (<[origin_a := 1 :: from (lit "meta")]> ∅)))).

Definition db : LevelDb :=
  {| db_records := records; db_get_fault := false;
     db_next_fault := None; db_end_fault := false |}.

(** Two entries of one origin and one entry of another. *)
Definition two_origins : LevelDb :=
  {| db_records :=
       <[origin_a ++ [0; 1] ++ from (lit "theme") := 1 :: from (lit "dark")]>
       (<[origin_a ++ [0; 1] ++ from (lit "lang") := 1 :: from (lit "en")]>
       (<[origin_b ++ [0; 1] ++ from (lit "theme") := 1 :: from (lit "light")]> ∅));
     db_get_fault := false; db_next_fault := None; db_end_fault := false |}.

(** The same store, whose iterator fails after its first entry. *)
Definition failing : LevelDb :=
  {| db_records := db_records two_origins; db_get_fault := false;
     db_next_fault := Some 1%nat; db_end_fault := false |}.

End Sample.

Module SampleRows.

Definition rows : list Row :=
  [{| row_key := lit "theme"; row_value := from (lit "dark") |};
   {| row_key := lit "lang"; row_value := from (lit "en") |}].

Definition db : Database := {| item_table := rows; sql_fault := None |}.

Definition failing : Database := {| item_table := rows; sql_fault := Some 1%nat |}.

End SampleRows.

Module Unusual.

(** URLs [url.parse] does not tidy: a host that ends with U+0001, a host
    that ends with U+0000, a host that holds the separator, and a user
    part with a malformed escape, on which [url.parse] throws. *)
Definition url_soh : jsstring := lit "https://a.com" ++ [1].
Definition url_nul : jsstring := lit "https://a.com" ++ [0].
Definition url_sep : jsstring := lit "https://a.com" ++ [0; 1] ++ lit "x".
Definition url_escape : jsstring := lit "http://%@a.com".

Definition parse (url : jsstring) : UrlObject :=
  if JS.eqb url url_soh
  then {| protocol := Some (lit "https:"); host := Some (lit "a.com" ++ [1]) |}
  else if JS.eqb url url_nul
  then {| protocol := Some (lit "https:"); host := Some (lit "a.com" ++ [0]) |}
  else if JS.eqb url url_sep
  then {| protocol := Some (lit "https:");
          host := Some (lit "a.com" ++ [0; 1] ++ lit "x") |}
  else Sample.parse url.

Definition url_parse (url : jsstring) : result UrlObject :=
  if JS.eqb url url_escape then Throw UrlError else Ok (parse url).

(** Values that start with the two bytes of U+00E9, and a record under
    the origin-only key of [url_sep]. *)
Definition records : gmap (list N) (list N) :=
  <[Sample.origin_a ++ [0; 1] ++ from (lit "theme") := [0xC3; 0xA9; 0x61]]>
  (<[Sample.origin_a ++ [0; 1] ++ from (lit "x") := 1 :: from (lit "sep")]>
  (<[Sample.origin_a := [0xC3; 0xA9; 0x61]]> ∅)).

Definition db : LevelDb :=
  {| db_records := records; db_get_fault := false;
     db_next_fault := None; db_end_fault := false |}.

(** The same store, whose iterator fails at once. *)
Definition failing : LevelDb :=
  {| db_records := records; db_get_fault := false;
     db_next_fault := Some O; db_end_fault := false |}.

End Unusual.

(** ** Proof automation *)

Ltac Zify.zify_post_hook ::= Z.to_euclidean_division_equations.

#[local] Arguments N.eqb : simpl never.
#[local] Arguments N.ltb : simpl never.
#[local] Arguments N.leb : simpl never.
#[local] Arguments N.add : simpl never.
#[local] Arguments N.sub : simpl never.
#[local] Arguments N.mul : simpl never.
#[local] Arguments N.div : simpl never.
#[local] Arguments N.modulo : simpl never.

Ltac nbool :=
  repeat rewrite ?andb_true_iff, ?andb_false_iff, ?orb_true_iff,
    ?orb_false_iff, ?negb_true_iff, ?negb_false_iff,
    ?N.ltb_lt, ?N.ltb_ge, ?N.leb_le, ?N.leb_gt, ?N.eqb_eq, ?N.eqb_neq in *.

(** ** Examples *)

Example split_two :
  JS.split [0; 1] (JS.lit "ab" ++ [0; 1] ++ JS.lit "cd" ++ [0; 1] ++ JS.lit "e")
  = [JS.lit "ab"; JS.lit "cd"; JS.lit "e"].
Proof. reflexivity. Qed.

Example utf8_euro : Buffer.from [0x20AC] = [0xE2; 0x82; 0xAC]
  /\ Buffer.toString [0xE2; 0x82; 0xAC] = [0x20AC].
Proof. split; reflexivity. Qed.

Example utf8_emoji : Buffer.from [0xD83D; 0xDE00] = [0xF0; 0x9F; 0x98; 0x80]
  /\ Buffer.toString [0xF0; 0x9F; 0x98; 0x80] = [0xD83D; 0xDE00].
Proof. split; reflexivity. Qed.

Example read_theme :
  read Sample.parse (Ok Sample.db) (lit "https://a.com") (lit "theme")
  = ([OpenDb; DbGet (from (lit "_https://a.com") ++ [0; 1] ++ from (lit "theme")); DbClose],
     Ok (lit "dark")).
Proof. vm_compute. reflexivity. Qed.

Example readAll_two_origins :
  yields (readAll Sample.parse (Ok Sample.two_origins) (lit "https://a.com"))
  = [{| item_key := Some (lit "lang"); item_value := lit "en" |};
     {| item_key := Some (lit "theme"); item_value := lit "dark" |}].
Proof. vm_compute. reflexivity. Qed.

Example readAll_failing :
  (run (NotStarted (readAll Sample.parse (Ok Sample.failing) (lit "https://a.com")))
     [CallNext; CallNext]).1
  = [Called OpenDb;
     Called (DbIterator (from (lit "_https://a.com")) (from (lit "_https://a.com") ++ [1]));
     Called IterNext;
     Settle (Yielded {| item_key := Some (lit "lang"); item_value := lit "en" |});
     Called IterNext; Called IterEnd; Called DbClose;
     Settle (Rejected StoreError)].
Proof. vm_compute. reflexivity. Qed.

Example read_missing :
  (read Sample.parse (Ok Sample.db) (lit "http://a.com") (lit "missing")).2
  = Throw NotFound.
Proof. vm_compute. reflexivity. Qed.

(** ** ASCII strings *)

Lemma from_ascii_app (a s : jsstring) :
  Forall ascii_unit a -> from (a ++ s) = a ++ from s.
Proof.
  induction 1 as [|c a Hc _ IH]; [reflexivity|].
  simpl. unfold ascii_unit in Hc.
  destruct (N.ltb_spec c 128); [|lia]. now rewrite IH.
Qed.

Lemma from_ascii (a : jsstring) : Forall ascii_unit a -> from a = a.
Proof.
  intros H. rewrite <- (app_nil_r a) at 1.
  rewrite from_ascii_app by assumption. simpl. apply app_nil_r.
Qed.

Lemma from_app_not_low (a : jsstring) (c : N) (b : jsstring) :
  is_low c = false -> from (a ++ c :: b) = from a ++ from (c :: b).
Proof.
  intros Hc. remember (from (c :: b)) as tail eqn:Ht.
  remember (length a) as n eqn:Hn. revert a Hn.
  induction n as [n IH] using lt_wf_ind.
  intros [|x a] Hn; [now subst tail|].
  assert (from (a ++ c :: b) = from a ++ tail) as IHa
    by (apply (IH (length a)); [subst n; simpl; lia|reflexivity]).
  change ((x :: a) ++ c :: b) with (x :: (a ++ c :: b)).
  cbn [from].
  destruct (x <? 128); [now rewrite IHa|].
  destruct (x <? 2048); [now rewrite IHa, app_assoc|].
  destruct (is_high x).
  - destruct a as [|d a].
    + cbn [app]. now rewrite Hc, Ht.
    + change ((d :: a) ++ c :: b) with (d :: (a ++ c :: b)).
      destruct (is_low d) eqn:Hd.
      * assert (from (a ++ c :: b) = from a ++ tail) as ->
          by (apply (IH (length a)); [subst n; simpl; lia|reflexivity]).
        rewrite ?Hd. now rewrite app_assoc.
      * change (d :: (a ++ c :: b)) with ((d :: a) ++ c :: b).
        rewrite ?Hd. now rewrite IHa, app_assoc.
  - destruct (is_low x); [now rewrite IHa, app_assoc|].
    destruct (x <? 65536); now rewrite IHa, app_assoc.
Qed.

Lemma toString_ascii_app (a bs : Bytes) :
  Forall ascii_unit a -> toString (a ++ bs) = a ++ toString bs.
Proof.
  induction 1 as [|c a Hc _ IH]; [reflexivity|].
  simpl. unfold ascii_unit in Hc.
  destruct (N.ltb_spec c 128); [|lia]. now rewrite IH.
Qed.

Lemma toString_ascii (a : Bytes) : Forall ascii_unit a -> toString a = a.
Proof.
  intros H. rewrite <- (app_nil_r a) at 1.
  rewrite toString_ascii_app by assumption. simpl. apply app_nil_r.
Qed.

Lemma plain_ascii (s : list N) : Forall plain_unit s -> Forall ascii_unit s.
Proof.
  intros H. eapply Forall_impl; [exact H|].
  unfold plain_unit, ascii_unit. lia.
Qed.

(** ** [split] on the host-key separator *)

Lemma has_sep_spec (s : list N) :
  has_sep s = true <-> exists a b, s = a ++ hostKeySeparator ++ b.
Proof.
  induction s as [|c s IH]; simpl.
  - split; [discriminate|]. intros (a & b & H). now destruct a.
  - rewrite orb_true_iff, IH. split.
    + intros [H | (a & b & ->)].
      * destruct s as [|d s]; nbool; [destruct H; discriminate|].
        destruct H as [-> [-> _]]. now exists [], s.
      * now exists (c :: a), b.
    + intros ([|x a] & b & H); simpl in H.
      * injection H as -> ->. left. reflexivity.
      * injection H as -> ->. right. now exists a, b.
Qed.

Lemma split_from_no_sep (acc s : jsstring) :
  has_sep s = false ->
  split_from hostKeySeparator O acc s = [rev acc ++ s].
Proof.
  revert acc. induction s as [|c s IH]; intros acc H.
  - simpl. now rewrite app_nil_r.
  - cbn [has_sep] in H. apply orb_false_iff in H as [H1 H2].
    cbn [split_from]. rewrite H1, IH by assumption.
    simpl. now rewrite <- app_assoc.
Qed.

Lemma split_from_first (acc a b : jsstring) :
  has_sep a = false ->
  split_from hostKeySeparator O acc (a ++ hostKeySeparator ++ b)
  = (rev acc ++ a) :: split_from hostKeySeparator O [] b.
Proof.
  revert acc. induction a as [|c a IH]; intros acc H.
  - simpl. now rewrite app_nil_r.
  - cbn [has_sep] in H. apply orb_false_iff in H as [H1 H2].
    change ((c :: a) ++ hostKeySeparator ++ b)
      with (c :: (a ++ hostKeySeparator ++ b)).
    cbn [split_from].
    assert (starts_with hostKeySeparator (c :: a ++ hostKeySeparator ++ b) = false) as ->.
    { destruct a as [|d a]; [|exact H1].
      simpl. now rewrite andb_false_r. }
    rewrite IH by assumption. simpl. now rewrite <- app_assoc.
Qed.

Lemma split_no_sep (s : jsstring) :
  has_sep s = false -> split hostKeySeparator s = [s].
Proof. intros H. unfold split. now rewrite split_from_no_sep. Qed.

Lemma split_one_sep (a b : jsstring) :
  has_sep a = false -> has_sep b = false ->
  split hostKeySeparator (a ++ hostKeySeparator ++ b) = [a; b].
Proof.
  intros Ha Hb. unfold split.
  rewrite split_from_first, split_from_no_sep by assumption. reflexivity.
Qed.

Lemma plain_no_sep (s : list N) : Forall plain_unit s -> has_sep s = false.
Proof.
  induction 1 as [|c s Hc _ IH]; [reflexivity|].
  simpl. rewrite IH, orb_false_r. unfold plain_unit in Hc.
  destruct s; simpl; [apply andb_false_r|].
  destruct (N.eqb_spec 0 c); [lia|reflexivity].
Qed.

(** ** UTF-8: decoding what was encoded *)

Ltac if_true :=
  match goal with
  | |- context [if ?b then _ else _] =>
      replace b with true by (symmetry; unfold is_cont; nbool; lia)
  end.

Ltac if_false :=
  match goal with
  | |- context [if ?b then _ else _] =>
      replace b with false by (symmetry; unfold is_cont; nbool; lia)
  end.

Lemma toString_enc2 (c : N) (bs : Bytes) :
  0x80 <= c < 0x800 -> toString (enc2 c ++ bs) = c :: toString bs.
Proof.
  intros H. unfold enc2. cbn [app toString].
  if_false. if_true. if_true. f_equal. unfold dec2. lia.
Qed.

Lemma toString_enc3 (c : N) (bs : Bytes) :
  0x800 <= c < 0x10000 -> is_high c = false -> is_low c = false ->
  toString (enc3 c ++ bs) = c :: toString bs.
Proof.
  intros H Hh Hl. unfold is_high, is_low in *. nbool.
  unfold enc3. cbn [app toString].
  if_false. if_false. if_true.
  assert (second3 (224 + c / 4096) (128 + (c / 64) mod 64) = true) as ->.
  { unfold second3, is_cont.
    destruct (N.eqb_spec (224 + c / 4096) 224); [nbool; lia|].
    destruct (N.eqb_spec (224 + c / 4096) 237); nbool; lia. }
  if_true. f_equal. unfold dec3. lia.
Qed.

Lemma toString_enc4 (hi lo : N) (bs : Bytes) :
  is_high hi = true -> is_low lo = true ->
  toString (enc4 (pair_point hi lo) ++ bs) = hi :: lo :: toString bs.
Proof.
  intros Hh Hl. unfold is_high, is_low in *. nbool.
  assert (0x10000 <= pair_point hi lo < 0x110000) as Hp
    by (unfold pair_point; lia).
  assert (units_of_point (pair_point hi lo) = [hi; lo]) as Hu.
  { unfold units_of_point, pair_point. f_equal; [lia|f_equal; lia]. }
  revert Hp Hu. generalize (pair_point hi lo) as p. intros p Hp Hu.
  unfold enc4. cbn [app toString].
  if_false. if_false. if_false. if_true.
  assert (second4 (240 + p / 262144) (128 + (p / 4096) mod 64) = true) as ->.
  { unfold second4, is_cont.
    destruct (N.eqb_spec (240 + p / 262144) 240); [nbool; lia|].
    destruct (N.eqb_spec (240 + p / 262144) 244); nbool; lia. }
  if_true. if_true.
  replace (dec4 _ _ _ _) with p by (unfold dec4; lia).
  now rewrite Hu.
Qed.

Lemma toString_from (s : jsstring) :
  well_formed s = true -> toString (from s) = s.
Proof.
  remember (length s) as n eqn:Hn. revert s Hn.
  induction n as [n IH] using lt_wf_ind.
  intros [|c rest] Hn Hwf; [reflexivity|].
  cbn [from well_formed length] in *.
  destruct (is_high c) eqn:Hh.
  - destruct rest as [|d rest]; [discriminate|].
    apply andb_true_iff in Hwf as [Hl Hwf]. rewrite Hl.
    assert ((c <? 128) = false) as -> by (unfold is_high in Hh; nbool; lia).
    assert ((c <? 2048) = false) as -> by (unfold is_high in Hh; nbool; lia).
    rewrite toString_enc4 by assumption.
    do 2 f_equal. apply (IH (length rest)); [simpl in Hn; lia|reflexivity|assumption].
  - apply andb_true_iff in Hwf as [Hwf Hrest].
    apply andb_true_iff in Hwf as [Hl Hc].
    apply negb_true_iff in Hl. rewrite Hl.
    assert (toString (from rest) = rest) as Hr
      by (apply (IH (length rest)); [lia|reflexivity|assumption]).
    destruct (N.ltb_spec c 128) as [H1|H1].
    { cbn [toString]. destruct (N.ltb_spec c 128); [|lia]. now rewrite Hr. }
    destruct (N.ltb_spec c 2048) as [H2|H2].
    { rewrite toString_enc2 by lia. now rewrite Hr. }
    rewrite Hc. apply N.ltb_lt in Hc.
    rewrite toString_enc3 by (assumption || lia). now rewrite Hr.
Qed.

(** ** The separator in decoded text comes from the bytes *)

Lemma toString_head_ascii (bs : Bytes) (c : N) (s : jsstring) :
  toString bs = c :: s -> c < 0x80 -> exists bs', bs = c :: bs' /\ s = toString bs'.
Proof.
  intros H Hc. destruct bs as [|b0 t1]; [discriminate|].
  cbn [toString] in H.
  destruct (N.ltb_spec b0 128) as [Hb|Hb].
  { injection H as -> <-. eauto. }
  exfalso.
  assert (forall u s', u :: s' = c :: s -> 0x80 <= u -> False) as Hbig
    by (intros u s' [= -> _]; lia).
  assert (forall p s', units_of_point p ++ s' = c :: s -> False) as Hpt.
  { intros p s' [= Hp _]. lia. }
  unfold fffd in H.
  repeat match type of H with
  | (if ?b then _ else _) = _ => destruct b eqn:?
  | match ?l with [] => _ | _ :: _ => _ end = _ => destruct l
  end;
  try (eapply Hpt; exact H);
  try (eapply Hbig; [exact H|]; unfold dec2, dec3, second3, is_cont in *;
       repeat match goal with
         | H' : (if ?b then _ else _) = true |- _ => destruct b eqn:?
         end; nbool; lia).
Qed.

Lemma has_sep_cons_other (u : N) (s : list N) :
  u <> 0 -> has_sep (u :: s) = has_sep s.
Proof.
  intros H. cbn [has_sep starts_with hostKeySeparator].
  destruct (N.eqb_spec 0 u); [congruence|reflexivity].
Qed.

Lemma has_sep_app_r (a s : list N) : has_sep s = true -> has_sep (a ++ s) = true.
Proof.
  intros H. induction a as [|c a IH]; [assumption|].
  cbn [app has_sep]. rewrite IH. apply orb_true_r.
Qed.

Lemma has_sep_toString (bs : Bytes) :
  has_sep (toString bs) = true -> has_sep bs = true.
Proof.
  remember (length bs) as n eqn:Hn. revert bs Hn.
  induction n as [n IH] using lt_wf_ind.
  intros [|b0 t1] Hn H; [discriminate|].
  assert (forall pre t, b0 :: t1 = pre ++ t -> pre <> [] ->
            has_sep (toString t) = true -> has_sep (b0 :: t1) = true) as Hrest.
  { intros pre t E Hpre Ht. rewrite E. apply has_sep_app_r.
    apply (IH (length t)); [|reflexivity|assumption].
    subst n. rewrite E, length_app. destruct pre; [congruence|simpl; lia]. }
  clear IH Hn.
  cbn [toString] in H.
  destruct (N.ltb_spec b0 128) as [Hb|Hb].
  { cbn [has_sep] in H. apply orb_true_iff in H as [H|H].
    - destruct (toString t1) as [|u s] eqn:E; cbn [starts_with hostKeySeparator] in H;
        [now rewrite andb_false_r in H|].
      apply andb_true_iff in H as [H0 H1]. apply andb_true_iff in H1 as [H1 _].
      apply N.eqb_eq in H0, H1. subst b0 u.
      apply toString_head_ascii in E as (t2 & -> & _); [|lia].
      reflexivity.
    - apply (Hrest [b0] t1); [reflexivity|discriminate|assumption]. }
  assert (forall u s, u <> 0 -> has_sep (u :: toString s) = true ->
            has_sep (toString s) = true) as Hbig
    by (intros u s Hu Hs; now rewrite has_sep_cons_other in Hs).
  assert (forall p s, has_sep (units_of_point p ++ toString s) = true ->
            has_sep (toString s) = true) as Hpt.
  { intros p s Hs. unfold units_of_point in Hs. cbn [app] in Hs.
    rewrite !has_sep_cons_other in Hs by lia. exact Hs. }
  repeat match type of H with
  | has_sep (if ?b then _ else _) = _ => destruct b eqn:?
  | has_sep (match ?l with [] => _ | _ :: _ => _ end) = _ => destruct l
  end;
  try discriminate H;
  try apply Hpt in H;
  try (apply Hbig in H;
       [|unfold dec2, dec3, fffd, second3, is_cont in *;
         repeat match goal with
           | H' : (if ?b then _ else _) = true |- _ => destruct b eqn:?
           end; nbool; lia]);
  match type of H with
  | has_sep (toString ?t) = true =>
      first [ apply (Hrest [b0] t); [reflexivity|discriminate|exact H]
            | eapply (Hrest [b0; _] t); [reflexivity|discriminate|exact H]
            | eapply (Hrest [b0; _; _] t); [reflexivity|discriminate|exact H]
            | eapply (Hrest [b0; _; _; _] t); [reflexivity|discriminate|exact H] ]
  end.
Qed.

(** ** The byte-wise order *)

Lemma leb_app_common (o x y : Bytes) : leb (o ++ x) (o ++ y) = leb x y.
Proof.
  induction o as [|c o IH]; [reflexivity|].
  cbn [app leb]. now rewrite N.ltb_irrefl, N.eqb_refl, IH.
Qed.

Lemma leb_prefix (o t : Bytes) : leb o (o ++ t) = true.
Proof.
  rewrite <- (app_nil_r o) at 1. rewrite leb_app_common. reflexivity.
Qed.

Lemma leb_refl (o : Bytes) : leb o o = true.
Proof.
  induction o as [|c o IH]; [reflexivity|].
  cbn [leb]. rewrite N.eqb_refl, IH. apply orb_true_r.
Qed.

Lemma leb_other_origin (o1 o2 t : Bytes) :
  Forall plain_unit o1 -> Forall plain_unit o2 -> o1 <> o2 ->
  t = [] \/ (exists x, t = hostKeySeparator ++ x) ->
  leb o1 (o2 ++ t) && leb (o2 ++ t) (o1 ++ [1]) = false.
Proof.
  intros H1. revert o2. induction H1 as [|a o1 Ha _ IH]; intros o2 H2 Hne Ht.
  - destruct H2 as [|c o2 Hc _]; [congruence|].
    unfold plain_unit in Hc. cbn [app leb].
    destruct (N.ltb_spec c 1); [lia|].
    destruct (N.eqb_spec c 1); [lia|]. reflexivity.
  - unfold plain_unit in Ha. destruct H2 as [|c o2 Hc H2].
    + destruct Ht as [->|[x ->]]; cbn [app leb hostKeySeparator]; [reflexivity|].
      destruct (N.ltb_spec a 0); [lia|].
      destruct (N.eqb_spec a 0); [lia|]. reflexivity.
    + cbn [app leb].
      destruct (N.ltb_spec a c), (N.ltb_spec c a), (N.eqb_spec a c),
        (N.eqb_spec c a); try lia; cbn [orb andb];
        try reflexivity; try apply andb_false_r.
      subst c. apply IH; [assumption|congruence|assumption].
Qed.

(** ** [keyFromUrl] *)

Lemma effective_protocol_plain (u : UrlObject) :
  plain_url u -> Forall (fun c => plain_unit c /\ c <> 47) (effective_protocol u).
Proof.
  intros (_ & _ & Hp). unfold effective_protocol.
  destruct (truthy (protocol u)); [assumption|].
  repeat constructor; vm_compute; intuition discriminate.
Qed.

Lemma origin_plain (u : UrlObject) : plain_url u -> Forall plain_unit (origin u).
Proof.
  intros Hu. pose proof (effective_protocol_plain u Hu) as Hp.
  destruct Hu as (_ & Hh & _). unfold origin.
  repeat apply Forall_app_2; try assumption.
  - repeat constructor; vm_compute; intuition discriminate.
  - eapply Forall_impl; [exact Hp|]. now intros c [Hc _].
  - repeat constructor; vm_compute; intuition discriminate.
Qed.

Lemma slash_split (p1 p2 h1 h2 : jsstring) :
  Forall (fun c => plain_unit c /\ c <> 47) p1 ->
  Forall (fun c => plain_unit c /\ c <> 47) p2 ->
  p1 ++ lit "//" ++ h1 = p2 ++ lit "//" ++ h2 -> p1 = p2 /\ h1 = h2.
Proof.
  intros H1. revert p2.
  induction H1 as [|a p1 [_ Ha] _ IH]; intros p2 H2 E;
    destruct H2 as [|c p2 [_ Hc] H2]; cbn [app] in E.
  - split; [reflexivity|]. now apply app_inv_head in E.
  - change (lit "//") with [47; 47] in E. injection E as <- _. congruence.
  - change (lit "//") with [47; 47] in E. injection E as -> _. congruence.
  - injection E as -> E. apply IH in E as [-> ->]; auto.
Qed.

Lemma origin_inj (u1 u2 : UrlObject) :
  plain_url u1 -> plain_url u2 -> origin u1 = origin u2 ->
  effective_protocol u1 = effective_protocol u2 /\ host u1 = host u2.
Proof.
  intros P1 P2 E. unfold origin in E. apply app_inv_head in E.
  apply slash_split in E as [Ep Eh]; try now apply effective_protocol_plain.
  split; [assumption|].
  destruct P1 as (T1 & _ & _), P2 as (T2 & _ & _).
  destruct (host u1) as [h1|], (host u2) as [h2|]; try discriminate.
  simpl in Eh. now subst.
Qed.

Lemma keyFromUrl_ok (parse : jsstring -> UrlObject) (url : jsstring)
    (key separator : option jsstring) :
  truthy (host (parse url)) = true ->
  keyFromUrl parse url key separator
  = Ok (from (origin (parse url)
              ++ if truthy key
                 then default hostKeySeparator separator ++ default [] key
                 else [])).
Proof.
  intros H. unfold keyFromUrl, origin, effective_protocol. rewrite H. cbn [negb].
  destruct (truthy (protocol (parse url))); cbn [negb];
    now rewrite <- !app_assoc.
Qed.

Lemma keyFromUrl_throw (parse : jsstring -> UrlObject) (url : jsstring)
    (key separator : option jsstring) :
  truthy (host (parse url)) = false ->
  keyFromUrl parse url key separator = Throw HostRequired.
Proof. intros H. unfold keyFromUrl. now rewrite H. Qed.

Lemma keyFromUrl_plain (parse : jsstring -> UrlObject) (url : jsstring)
    (key separator : option jsstring) :
  plain_url (parse url) ->
  keyFromUrl parse url key separator
  = Ok (origin (parse url)
        ++ from (if truthy key
                 then default hostKeySeparator separator ++ default [] key
                 else [])).
Proof.
  intros Hu. rewrite keyFromUrl_ok by apply Hu.
  rewrite from_ascii_app; [reflexivity|].
  apply plain_ascii. now apply origin_plain.
Qed.

(** ** [read] *)

Lemma read_open_failed (parse : jsstring -> UrlObject) (e : Error)
    (url key : jsstring) :
  read parse (Throw e) url key = ([OpenDb], Throw e).
Proof. reflexivity. Qed.

Lemma read_no_host (parse : jsstring -> UrlObject) (db : LevelDb)
    (url key : jsstring) :
  truthy (host (parse url)) = false ->
  read parse (Ok db) url key = ([OpenDb; DbClose], Throw HostRequired).
Proof.
  intros H. unfold read. rewrite keyFromUrl_throw by assumption. reflexivity.
Qed.

Lemma read_opened (parse : jsstring -> UrlObject) (db : LevelDb)
    (url key : jsstring) (k : Bytes) :
  keyFromUrl parse url (Some key) None = Ok k ->
  read parse (Ok db) url key = ([OpenDb; DbGet k; DbClose], lookup_result db k).
Proof.
  intros H. unfold read, lookup_result, db_get, call, lift. rewrite H.
  cbn [bind]. destruct (db_get_fault db); [reflexivity|].
  destruct (db_records db !! k); reflexivity.
Qed.

Lemma unpackValue_ascii (b : N) (rest : Bytes) :
  b < 0x80 -> unpackValue (b :: rest) = toString rest.
Proof.
  intros H. unfold unpackValue. cbn [toString].
  destruct (N.ltb_spec b 128); [reflexivity|lia].
Qed.

(** * Properties of the key codec *)

(** C9. For a URL with a host, [keyFromUrl] derives from the empty
    application key the same key as from no key at all, and [read] with
    the empty key performs its one lookup against the origin-only key,
    with no separator and no key appended. *)
Theorem read_empty_key_is_origin_lookup (parse : jsstring -> UrlObject)
    (db : LevelDb) (url : jsstring) :
  truthy (host (parse url)) = true ->
  keyFromUrl parse url (Some []) None = keyFromUrl parse url None None
  /\ keyFromUrl parse url None None = Ok (from (origin (parse url)))
  /\ read parse (Ok db) url []
     = ([OpenDb; DbGet (from (origin (parse url))); DbClose],
        lookup_result db (from (origin (parse url)))).
Proof.
  intros Hh.
  assert (forall key, truthy key = false ->
            keyFromUrl parse url key None = Ok (from (origin (parse url))))
    as Hk.
  { intros key Hkey. rewrite keyFromUrl_ok by assumption.
    rewrite Hkey. now rewrite app_nil_r. }
  split; [|split].
  - now rewrite !Hk.
  - now apply Hk.
  - apply read_opened. now apply Hk.
Qed.

Lemma read_empty_key_is_origin_lookup_witness :
  read Sample.parse (Ok Sample.db) (lit "https://a.com") []
  = ([OpenDb; DbGet (from (lit "_https://a.com")); DbClose], Ok (lit "meta")).
Proof.
  destruct (read_empty_key_is_origin_lookup Sample.parse Sample.db
              (lit "https://a.com") eq_refl) as (_ & _ & H).
  rewrite H. vm_compute. reflexivity.
Defined.

(** * Properties of the decoding *)

(** C5, as the code has it.  [unpackValue] of a raw value whose first
    byte is an ASCII byte, such as the marker 0x01, is the text of the
    value without that byte; of the empty raw value it is the empty
    string. *)
Theorem unpackValue_strips_ascii_marker (b : N) (rest : Bytes) :
  b < 0x80 ->
  unpackValue (b :: rest) = toString rest /\ unpackValue [] = [].
Proof.
  intros H. split; [now apply unpackValue_ascii|reflexivity].
Qed.

Lemma unpackValue_strips_ascii_marker_witness :
  unpackValue (1 :: from (lit "dark")) = lit "dark".
Proof.
  destruct (unpackValue_strips_ascii_marker 1 (from (lit "dark"))) as [H _];
    [reflexivity|].
  rewrite H. vm_compute. reflexivity.
Defined.

(** C5 fails as stated: the empty raw value decodes to the empty string
    and [read] returns it; and for the raw value C3 A9 the result is the
    empty string, whereas the text of the value without its first byte is
    U+FFFD. *)
Lemma unpackValue_not_byte_strip :
  unpackValue [] = []
  /\ (read Sample.parse (Ok Sample.db) (lit "https://a.com") (lit "empty")).2
     = Ok []
  /\ unpackValue [0xC3; 0xA9] = []
  /\ toString [0xA9] = [0xFFFD].
Proof. vm_compute. repeat split. Qed.

(** C6, as the code has it.  For a raw key that does not contain the
    bytes 0x00 0x01, the split has no second piece: the application key
    is [undefined], and no error is raised. *)
Theorem actualKey_without_separator (key : Bytes) :
  (forall a b, key <> a ++ [0; 1] ++ b) -> actualKey key = None.
Proof.
  intros H. unfold actualKey.
  rewrite split_no_sep; [reflexivity|].
  destruct (has_sep (toString key)) eqn:E; [|reflexivity].
  apply has_sep_toString, has_sep_spec in E as (a & b & ->).
  now destruct (H a b).
Qed.

Lemma actualKey_without_separator_witness :
  actualKey (from (lit "_https://a.com")) = None.
Proof.
  apply actualKey_without_separator. intros a b E.
  assert (has_sep (from (lit "_https://a.com")) = true) as H
    by (apply has_sep_spec; eauto).
  vm_compute in H. discriminate H.
Defined.

(** C6 fails as stated: the origin-only key has no separator, and the
    scan yields an item for it, with no application key, instead of
    failing. *)
Lemma actualKey_no_error :
  actualKey (from (lit "_https://a.com")) = None
  /\ (run (NotStarted (readAll Sample.parse (Ok Sample.db) (lit "https://a.com")))
        [CallNext]).1
     = [Called OpenDb;
        Called (DbIterator (from (lit "_https://a.com"))
                  (from (lit "_https://a.com") ++ [1]));
        Called IterNext;
        Settle (Yielded {| item_key := None; item_value := lit "meta" |})].
Proof. vm_compute. split; reflexivity. Qed.

(** * Properties of the scan *)

Lemma yields_after {A} (t : list Event) (g : Gen A) :
  yields (after t g) = yields g.
Proof. now destruct g. Qed.

Lemma yields_readAll_loop (g : Gen (Bytes * Bytes)) :
  yields (readAll_loop g)
  = (fun r => {| item_key := actualKey r.1; item_value := unpackValue r.2 |})
      <$> yields g.
Proof.
  induction g as [t|t e|t [k v] next IH r]; cbn [readAll_loop].
  - unfold complete, finally, db_close, call. reflexivity.
  - unfold complete, finally, db_close, call. reflexivity.
  - cbn [yields fmap list_fmap]. now rewrite IH.
Qed.

Lemma yields_asyncIterable (db : LevelDb) (l : list (Bytes * Bytes)) :
  yields (asyncIterable db ((fun r => NextEntry r.1 r.2) <$> l)) = l.
Proof.
  induction l as [|[k v] l IH]; cbn [fmap list_fmap asyncIterable].
  - unfold complete, finally, iterator_end, call.
    now destruct (db_end_fault db).
  - cbn [yields fst snd]. now rewrite IH.
Qed.

(** * Release of the iterator and of the store *)

Lemma quiet_app (t1 t2 : list Event) : quiet t1 -> quiet t2 -> quiet (t1 ++ t2).
Proof.
  intros [H1 H2] [H3 H4]. split; rewrite not_elem_of_app; auto.
Qed.

Lemma quiet_called {A} (t : list Event) :
  quiet t -> (@Called A IterEnd ∉ Called <$> t) /\ (@Called A DbClose ∉ Called <$> t).
Proof.
  intros [H1 H2]. split; intros H; apply list_elem_of_fmap in H as (ev & E & Hev);
    injection E as <-; auto.
Qed.

Lemma releases_once_after (t0 t : list Event) :
  quiet t0 -> releases_once t -> releases_once (t0 ++ t).
Proof.
  intros H0 (pre & -> & Hpre). exists (t0 ++ pre).
  split; [now rewrite app_assoc|now apply quiet_app].
Qed.

Lemma managed_after {A} (t0 : list Event) (g : Gen A) :
  quiet t0 -> managed g -> managed (after t0 g).
Proof.
  intros H0. destruct g as [t|t e|t a next r]; cbn [after managed].
  - now apply releases_once_after.
  - now apply releases_once_after.
  - intros (Ht & Hr & Hn). auto using quiet_app.
Qed.

Lemma quiet_next : quiet [IterNext].
Proof.
  split; intros H; apply list_elem_of_singleton in H; discriminate H.
Qed.

Lemma managed_readAll_loop (db : LevelDb) (results : list NextResult) :
  managed (readAll_loop (asyncIterable db results)).
Proof.
  assert (releases_once [IterNext; IterEnd; DbClose]) as Hrel
    by (exists [IterNext]; split; [reflexivity|apply quiet_next]).
  induction results as [|[k v|e] rest IH]; cbn [asyncIterable].
  - unfold complete, finally, iterator_end, call.
    destruct (db_end_fault db); exact Hrel.
  - cbn [readAll_loop managed]. split; [apply quiet_next|].
    split; [|exact IH].
    unfold finally, iterator_end, db_close, call.
    now destruct (db_end_fault db).
  - unfold complete, finally, iterator_end, call.
    destruct (db_end_fault db); exact Hrel.
Qed.

Lemma run_completed {A} (cs : list Cmd) (obs : list (Obs A)) (st : GenState A) :
  run Completed cs = (obs, st) ->
  st = Completed /\ forall ev, Called ev ∉ obs.
Proof.
  revert obs. induction cs as [|c cs IH]; intros obs H; cbn [run] in H.
  - injection H as <- <-. split; [reflexivity|]. intros ev. apply not_elem_of_nil.
  - assert (step (@Completed A) c = ([Settle Finished], Completed)) as E
      by now destruct c.
    rewrite E in H. destruct (run Completed cs) as [o' st'] eqn:R.
    injection H as <- <-. destruct (IH _ eq_refl) as [-> Hno].
    split; [reflexivity|]. intros ev Hin.
    apply elem_of_cons in Hin as [Hin|Hin]; [discriminate|].
    now apply (Hno ev).
Qed.

Lemma released_after_completion {A} (t : list Event) (s : Settled A)
    (cs : list Cmd) (post : list (Obs A)) (st : GenState A) :
  releases_once t -> terminal s ->
  run Completed cs = (post, st) ->
  released ((Called <$> t) ++ [Settle s] ++ post).
Proof.
  intros (pre & -> & Hq) Hs R.
  destruct (run_completed _ _ _ R) as [_ Hno].
  destruct (@quiet_called A _ Hq) as [H1 H2].
  exists (Called <$> pre), s, post.
  split; [|auto]. rewrite fmap_app, <- app_assoc. reflexivity.
Qed.

Lemma released_later {A} (t : list Event) (a : A) (obs : list (Obs A)) :
  quiet t -> released obs ->
  released ((Called <$> t) ++ [Settle (Yielded a)] ++ obs).
Proof.
  intros Hq (pre & s & post & -> & Hs & H1 & H2 & Hno).
  destruct (@quiet_called A _ Hq) as [H3 H4].
  exists ((Called <$> t) ++ [Settle (Yielded a)] ++ pre), s, post.
  split; [now rewrite <- !app_assoc|].
  split; [assumption|].
  repeat split; try assumption;
    rewrite !not_elem_of_app; repeat split; try assumption;
    intros H; apply list_elem_of_singleton in H; discriminate H.
Qed.

Lemma run_suspended {A} (cs : list Cmd) :
  forall (next : Gen A) (r : Eff unit) (obs : list (Obs A)),
    managed next -> r.1 = [IterEnd; DbClose] ->
    run (Suspended next r) cs = (obs, Completed) ->
    released obs.
Proof.
  induction cs as [|c cs IH]; intros next r obs Hm Hr H; cbn [run] in H.
  - discriminate H.
  - destruct c; cbn [step] in H.
    + destruct next as [t|t e|t a next' r']; cbn [resume managed] in H, Hm.
      * destruct (run Completed cs) as [post st] eqn:R.
        injection H as <- _. rewrite <- app_assoc.
        eapply released_after_completion; eauto. now left.
      * destruct (run Completed cs) as [post st] eqn:R.
        injection H as <- _. rewrite <- app_assoc.
        eapply released_after_completion; eauto. right. eauto.
      * destruct Hm as (Hq & Hr' & Hm).
        destruct (run (Suspended next' r') cs) as [o' st] eqn:R.
        injection H as <- ->. rewrite <- app_assoc.
        apply released_later; [assumption|]. now apply (IH next' r').
    + destruct (run Completed cs) as [post st] eqn:R.
      injection H as <- _. rewrite Hr, <- app_assoc.
      eapply released_after_completion; eauto.
      * exists []. split; [reflexivity|]. split; apply not_elem_of_nil.
      * destruct r.2; [now left|right; eauto].
Qed.

Lemma run_not_started {A} (g : Gen A) (cs : list Cmd) (obs : list (Obs A)) :
  managed g ->
  run (NotStarted g) cs = (obs, Completed) ->
  (forall ev, Called ev ∉ obs) \/ released obs.
Proof.
  intros Hm H. destruct cs as [|c cs]; cbn [run] in H; [discriminate H|].
  destruct c; cbn [step] in H.
  - right. destruct g as [t|t e|t a next' r']; cbn [resume managed] in H, Hm.
    + destruct (run Completed cs) as [post st] eqn:R.
      injection H as <- _. rewrite <- app_assoc.
      eapply released_after_completion; eauto. now left.
    + destruct (run Completed cs) as [post st] eqn:R.
      injection H as <- _. rewrite <- app_assoc.
      eapply released_after_completion; eauto. right. eauto.
    + destruct Hm as (Hq & Hr' & Hm).
      destruct (run (Suspended next' r') cs) as [o' st] eqn:R.
      injection H as <- ->. rewrite <- app_assoc.
      apply released_later; [assumption|].
      now apply (run_suspended cs next' r').
  - left. destruct (run Completed cs) as [post st] eqn:R.
    injection H as <- _. destruct (run_completed _ _ _ R) as [_ Hno].
    intros ev Hin. apply elem_of_cons in Hin as [Hin|Hin]; [discriminate|].
    now apply (Hno ev).
Qed.

Lemma run_failed_unopened {A} (e : Error) (cs : list Cmd) (obs : list (Obs A))
    (st : GenState A) :
  run (NotStarted (Failed [] e)) cs = (obs, st) -> forall ev, Called ev ∉ obs.
Proof.
  intros H. destruct cs as [|c cs]; cbn [run] in H.
  - injection H as <- _. intros ev. apply not_elem_of_nil.
  - assert (exists s, step (NotStarted (@Failed A [] e)) c = ([Settle s], Completed))
      as [s E] by (destruct c; cbn; eauto).
    rewrite E in H. destruct (run Completed cs) as [post st'] eqn:R.
    injection H as <- _. destruct (run_completed _ _ _ R) as [_ Hno].
    intros ev Hin. apply elem_of_cons in Hin as [Hin|Hin]; [discriminate|].
    now apply (Hno ev).
Qed.

(** X13. With an opened store, [read] calls [db.close()] exactly once,
    as its last call before its promise settles, whether the lookup
    succeeds, fails or the URL has no host.  A scan that was started and
    that the caller left completed (by reading it to its end, by an error
    of the store, or by [return()] at any item) called [iterator.end]
    once and then [db.close()] once, right before the promise of that
    last call settled. *)
Theorem store_released_exactly_once (parse : jsstring -> UrlObject)
    (db : LevelDb) (url : jsstring) :
  (forall key, exists pre,
      (read parse (Ok db) url key).1 = OpenDb :: pre ++ [DbClose]
      /\ (DbClose ∉ pre))
  /\ (forall cs obs,
        run (NotStarted (readAll parse (Ok db) url)) cs = (obs, Completed) ->
        Called OpenDb ∈ obs ->
        released obs).
Proof.
  split.
  - intros key. destruct (truthy (host (parse url))) eqn:Hh.
    + erewrite read_opened by (now apply keyFromUrl_ok).
      eexists [_]. split; [reflexivity|].
      intros H. apply list_elem_of_singleton in H. discriminate H.
    + rewrite read_no_host by assumption.
      exists []. split; [reflexivity|apply not_elem_of_nil].
  - intros cs obs H Hopen. unfold readAll in H.
    destruct (truthy (host (parse url))) eqn:Hh.
    + rewrite !keyFromUrl_ok in H by assumption.
      apply run_not_started in H as [Hno|H]; [now destruct (Hno OpenDb)|assumption|].
      apply managed_after; [|apply managed_readAll_loop].
      split; intros Hin; repeat (apply elem_of_cons in Hin as [Hin|Hin];
        [discriminate Hin|]); now apply not_elem_of_nil in Hin.
    + rewrite keyFromUrl_throw in H by assumption.
      now destruct (run_failed_unopened _ _ _ _ H OpenDb).
Qed.

Lemma store_released_exactly_once_witness :
  released
    (run (NotStarted (readAll Sample.parse (Ok Sample.db) (lit "https://a.com")))
       [CallNext; CallReturn]).1.
Proof.
  destruct (store_released_exactly_once Sample.parse Sample.db (lit "https://a.com"))
    as [_ H].
  destruct (run (NotStarted (readAll Sample.parse (Ok Sample.db) (lit "https://a.com")))
              [CallNext; CallReturn]) as [obs st] eqn:R.
  vm_compute in R. injection R as <- <-.
  apply H with (cs := [CallNext; CallReturn]).
  - vm_compute. reflexivity.
  - apply elem_of_cons. now left.
Defined.

(** * Further properties of the key codec *)

Lemma leb_range_exact (o k : Bytes) :
  leb o k && leb k (o ++ [1]) = true
  <-> exists t, k = o ++ t /\ (t = [] \/ (exists t', t = 0 :: t') \/ t = [1]).
Proof.
  revert k. induction o as [|a o IH]; intros k.
  - cbn [app leb andb]. destruct k as [|x k]; cbn [leb].
    + split; [|reflexivity]. intros _. exists []. auto.
    + split.
      * intros H. exists (x :: k). split; [reflexivity|right].
        apply orb_true_iff in H as [H|H]; nbool.
        -- left. exists k. f_equal. lia.
        -- destruct H as [-> H]. right. now destruct k.
      * intros (t & E0 & Ht). cbn [app] in E0. subst t.
        destruct Ht as [E|[[t' E]|E]]; try discriminate E.
        -- injection E as -> ->. reflexivity.
        -- injection E as -> ->. reflexivity.
  - destruct k as [|x k]; cbn [app leb].
    + split; [discriminate|]. intros (t & E & _). discriminate E.
    + split.
      * intros H. apply andb_true_iff in H as [H1 H2].
        destruct (N.ltb_spec a x), (N.ltb_spec x a), (N.eqb_spec a x),
          (N.eqb_spec x a); cbn [orb andb] in H1, H2;
          try discriminate; try lia.
        subst x.
        destruct (proj1 (IH k)) as (t & -> & Ht); [now rewrite H1, H2|].
        now exists t.
      * intros (t & E & Ht). injection E as -> ->.
        rewrite N.ltb_irrefl, N.eqb_refl. cbn [orb andb].
        apply IH. now exists t.
Qed.

(** X1. For a URL with a non-empty host, a store key lies within the
    bounds of [readAll] exactly when it is the origin-only key, or the
    origin bytes followed by a byte 0x00 and anything, or the origin
    bytes followed by the single byte 0x01. *)
Theorem scan_range_exact (parse : jsstring -> UrlObject) (url : jsstring)
    (key : Bytes) :
  truthy (host (parse url)) = true ->
  exists lower upper,
    keyFromUrl parse url None None = Ok lower
    /\ keyFromUrl parse url (Some [1]) (Some []) = Ok upper
    /\ (leb lower key && leb key upper = true
        <-> key = lower
            \/ (exists rest, key = lower ++ 0 :: rest)
            \/ key = lower ++ [1]).
Proof.
  intros Hh.
  exists (from (origin (parse url))), (from (origin (parse url)) ++ [1]).
  rewrite !keyFromUrl_ok by assumption.
  cbn [truthy default from_option id app]. rewrite app_nil_r.
  rewrite from_app_not_low by reflexivity.
  change (from [1]) with [1].
  split; [reflexivity|]. split; [reflexivity|].
  rewrite leb_range_exact. split.
  - intros (t & -> & [->|[[t' ->]| ->]]).
    + left. now rewrite app_nil_r.
    + right. left. now exists t'.
    + right. now right.
  - intros [->|[[rest ->]| ->]].
    + exists []. split; [now rewrite app_nil_r|auto].
    + exists (0 :: rest). split; [reflexivity|]. right. left. now exists rest.
    + exists [1]. auto.
Qed.

Lemma scan_range_exact_witness :
  leb (from (lit "_https://a.com")) (from (lit "_https://a.com") ++ [0; 7])
  && leb (from (lit "_https://a.com") ++ [0; 7]) (from (lit "_https://a.com") ++ [1])
  = true.
Proof.
  destruct (scan_range_exact Sample.parse (lit "https://a.com")
              (from (lit "_https://a.com") ++ [0; 7]) eq_refl)
    as (lower & upper & Hl & Hu & H).
  injection Hl as <-. injection Hu as <-.
  apply H. right. left. now exists [7].
Defined.

Lemma plain_prefix_unique (o1 o2 t1 t2 : list N) :
  Forall plain_unit o1 -> Forall plain_unit o2 ->
  t1 = [] \/ (exists x, t1 = 0 :: x) ->
  t2 = [] \/ (exists x, t2 = 0 :: x) ->
  o1 ++ t1 = o2 ++ t2 -> o1 = o2 /\ t1 = t2.
Proof.
  intros H1. revert o2.
  induction H1 as [|a o1 Ha _ IH]; intros o2 H2 Ht1 Ht2 E;
    destruct H2 as [|c o2 Hc H2]; cbn [app] in E.
  - auto.
  - unfold plain_unit in Hc.
    destruct Ht1 as [->|[x ->]]; [discriminate E|].
    injection E as <- _. lia.
  - unfold plain_unit in Ha.
    destruct Ht2 as [->|[x ->]]; [discriminate E|].
    injection E as -> _. lia.
  - injection E as -> E. destruct (IH _ H2 Ht1 Ht2 E) as [-> ->]. auto.
Qed.

Lemma from_inj (s t : jsstring) :
  well_formed s = true -> well_formed t = true -> from s = from t -> s = t.
Proof.
  intros Hs Ht E. rewrite <- (toString_from s), <- (toString_from t) by assumption.
  now rewrite E.
Qed.

Lemma Ok_inj {A} (a b : A) : Ok a = Ok b -> a = b.
Proof. congruence. Qed.

Lemma suffix_bytes (sep k : jsstring) :
  sep = hostKeySeparator ->
  from (if truthy (Some k) then sep ++ k else [])
  = match k with [] => [] | _ :: _ => 0 :: 1 :: from k end.
Proof.
  intros ->. destruct k as [|c k]; [reflexivity|].
  cbn [truthy]. change (hostKeySeparator ++ c :: k) with ([0; 1] ++ c :: k).
  now rewrite from_ascii_app by (repeat constructor; vm_compute; reflexivity).
Qed.

(** X2. Store keys do not collide.  For two URLs whose parsed origins are
    plain and two application keys with every surrogate paired, the entry
    keys are equal exactly when the URLs have the same protocol (after
    the default) and host and the application keys are equal. *)
Theorem entry_keys_collision_free (parse : jsstring -> UrlObject)
    (url1 url2 k1 k2 : jsstring) :
  plain_url (parse url1) -> plain_url (parse url2) ->
  well_formed k1 = true -> well_formed k2 = true ->
  keyFromUrl parse url1 (Some k1) None = keyFromUrl parse url2 (Some k2) None
  <-> effective_protocol (parse url1) = effective_protocol (parse url2)
      /\ host (parse url1) = host (parse url2)
      /\ k1 = k2.
Proof.
  intros P1 P2 W1 W2.
  rewrite !keyFromUrl_plain by assumption.
  cbn [default from_option id]. rewrite !suffix_bytes by reflexivity.
  split.
  - intros E. apply Ok_inj in E.
    apply plain_prefix_unique in E as [Eo Ek];
      try (now apply origin_plain);
      try (destruct k1; eauto; fail); try (destruct k2; eauto; fail).
    apply origin_inj in Eo as [Ep Eh]; try assumption.
    repeat split; try assumption.
    destruct k1 as [|c1 k1], k2 as [|c2 k2]; try discriminate; [reflexivity|].
    injection Ek as Ek. now apply from_inj.
  - intros (Ep & Eh & ->). unfold origin. now rewrite Ep, Eh.
Qed.

Lemma entry_keys_collision_free_witness :
  keyFromUrl Sample.parse (lit "https://a.com/page") (Some (lit "theme")) None
  = keyFromUrl Sample.parse (lit "//user@a.com") (Some (lit "theme")) None.
Proof.
  apply entry_keys_collision_free; try reflexivity;
    split; try reflexivity;
    split; repeat constructor; vm_compute; intuition discriminate.
Defined.

(** * Further properties of the decoding *)

Lemma has_sep_first (s : list N) :
  has_sep s = true ->
  exists a b, s = a ++ hostKeySeparator ++ b /\ has_sep a = false.
Proof.
  induction s as [|c s IH]; [discriminate|].
  cbn [has_sep]. destruct (starts_with hostKeySeparator (c :: s)) eqn:E.
  - intros _. destruct s as [|d s]; cbn [starts_with hostKeySeparator] in E;
      [now rewrite andb_false_r in E|].
    apply andb_true_iff in E as [E0 E1]. apply andb_true_iff in E1 as [E1 _].
    apply N.eqb_eq in E0, E1. subst c d. now exists [], s.
  - cbn [orb]. intros H. destruct (IH H) as (a & b & -> & Ha).
    exists (c :: a), b. split; [reflexivity|].
    cbn [has_sep]. rewrite Ha, orb_false_r.
    destruct a as [|d a]; [|exact E].
    cbn [starts_with hostKeySeparator]. apply andb_false_r.
Qed.

Lemma split_from_cons (skip : nat) (acc s : jsstring) :
  exists p ps, split_from hostKeySeparator skip acc s = p :: ps.
Proof.
  revert skip acc. induction s as [|c s IH]; intros skip acc; cbn [split_from].
  - eauto.
  - destruct skip; [|apply IH].
    destruct (starts_with hostKeySeparator (c :: s)); [eauto|apply IH].
Qed.

Lemma toString_has_sep (bs : Bytes) :
  has_sep bs = true -> has_sep (toString bs) = true.
Proof.
  remember (length bs) as n eqn:Hn. revert bs Hn.
  induction n as [n IH] using lt_wf_ind.
  intros [|b0 t1] Hn H; [discriminate|].
  assert (forall u t, (length t < n)%nat -> has_sep t = true ->
            has_sep (u ++ toString t) = true) as Hrest.
  { intros u t Hlen Ht. apply has_sep_app_r.
    now apply (IH (length t)). }
  clear IH. subst n. cbn [has_sep] in H. cbn [toString].
  destruct (N.ltb_spec b0 128) as [Hb|Hb].
  { apply orb_true_iff in H as [H|H].
    - destruct t1 as [|b1 t2]; cbn [starts_with hostKeySeparator] in H;
        [now rewrite andb_false_r in H|].
      apply andb_true_iff in H as [H0 H1]. apply andb_true_iff in H1 as [H1 _].
      apply N.eqb_eq in H0, H1. subst b0 b1. reflexivity.
    - apply (Hrest [b0]); [simpl; lia|assumption]. }
  assert (starts_with hostKeySeparator (b0 :: t1) = false) as E.
  { cbn [starts_with hostKeySeparator].
    destruct (N.eqb_spec 0 b0); [lia|reflexivity]. }
  rewrite E in H. cbn [orb] in H.
  assert (forall b t, 128 <= b -> has_sep (b :: t) = true -> has_sep t = true)
    as Hstrip by (intros b t Hge Ht; rewrite has_sep_cons_other in Ht; [exact Ht|lia]).
  assert (forall b, is_cont b = true -> 128 <= b) as Hcont
    by (intros b Hc; unfold is_cont in Hc; nbool; lia).
  assert (forall b, second3 b0 b = true -> 128 <= b) as H3.
  { intros b Hc. unfold second3, is_cont in Hc.
    repeat match type of Hc with (if ?c then _ else _) = _ => destruct c end;
      nbool; lia. }
  assert (forall b, second4 b0 b = true -> 128 <= b) as H4.
  { intros b Hc. unfold second4, is_cont in Hc.
    repeat match type of Hc with (if ?c then _ else _) = _ => destruct c end;
      nbool; lia. }
  clear E Hb.
  repeat match goal with
  | |- has_sep (if ?b then _ else _) = _ => destruct b eqn:?
  | |- has_sep (match ?l with [] => _ | _ :: _ => _ end) = _ => destruct l
  end;
  try discriminate H;
  repeat match goal with
  | Hc : is_cont ?b = true, Hs : has_sep (?b :: _) = true |- _ =>
      apply Hstrip in Hs; [|now apply Hcont]
  | Hc : second3 _ ?b = true, Hs : has_sep (?b :: _) = true |- _ =>
      apply Hstrip in Hs; [|now apply H3]
  | Hc : second4 _ ?b = true, Hs : has_sep (?b :: _) = true |- _ =>
      apply Hstrip in Hs; [|now apply H4]
  end;
  try discriminate H;
  match goal with
  | |- has_sep (?u :: toString ?t) = true =>
      apply (Hrest [u] t); [simpl; lia|exact H]
  | |- has_sep (?u ++ toString ?t) = true =>
      apply (Hrest u t); [simpl; lia|exact H]
  end.
Qed.

(** X3. The application key [readAll] reads from a raw store key is
    defined exactly when the raw key contains the bytes 0x00 0x01. *)
Theorem actualKey_defined_iff (key : Bytes) :
  is_Some (actualKey key) <-> exists a b, key = a ++ [0; 1] ++ b.
Proof.
  unfold actualKey. split.
  - intros Hs. apply has_sep_spec.
    destruct (has_sep key) eqn:E; [reflexivity|].
    assert (has_sep (toString key) = false) as E'.
    { destruct (has_sep (toString key)) eqn:E'; [|reflexivity].
      apply has_sep_toString in E'. congruence. }
    rewrite split_no_sep in Hs by assumption.
    destruct Hs as [x Hx]. discriminate Hx.
  - intros H. apply has_sep_spec, toString_has_sep, has_sep_first in H
      as (a & b & -> & Ha).
    unfold split. rewrite split_from_first by assumption.
    destruct (split_from_cons O [] b) as (p & ps & ->). now exists p.
Qed.

Lemma actualKey_plain_entry (o : Bytes) (a k : jsstring) :
  Forall plain_unit o -> well_formed k = true -> has_sep a = false ->
  k = a \/ (exists b, k = a ++ hostKeySeparator ++ b) ->
  actualKey (o ++ [0; 1] ++ from k) = Some a.
Proof.
  intros Ho Hwf Ha Hk. unfold actualKey.
  rewrite toString_ascii_app by now apply plain_ascii.
  rewrite toString_ascii_app by (repeat constructor; vm_compute; reflexivity).
  rewrite toString_from by assumption.
  change [0; 1] with hostKeySeparator. unfold split.
  rewrite split_from_first by now apply plain_no_sep.
  destruct Hk as [->|[b ->]].
  - now rewrite split_from_no_sep.
  - now rewrite split_from_first.
Qed.

(** X4. An application key that contains the separator is cut at its
    first occurrence: for a URL whose parsed origin is plain and a key
    [a ++ 0x00 0x01 ++ b] with every surrogate paired, where [a] has no
    separator, [readAll] reads [a] from the entry key. *)
Theorem actualKey_cut_at_separator (parse : jsstring -> UrlObject)
    (url a b : jsstring) :
  plain_url (parse url) ->
  well_formed (a ++ hostKeySeparator ++ b) = true -> has_sep a = false ->
  exists key,
    keyFromUrl parse url (Some (a ++ hostKeySeparator ++ b)) None = Ok key
    /\ actualKey key = Some a.
Proof.
  intros Hu Hwf Ha.
  rewrite keyFromUrl_plain by assumption.
  eexists. split; [reflexivity|].
  cbn [default from_option id]. rewrite suffix_bytes by reflexivity.
  destruct (a ++ hostKeySeparator ++ b) as [|c k] eqn:E;
    [now destruct a|].
  rewrite <- E in *.
  apply (actualKey_plain_entry _ a); try assumption.
  - now apply origin_plain.
  - right. now exists b.
Qed.

Lemma actualKey_cut_at_separator_witness :
  exists key,
    keyFromUrl Sample.parse (lit "https://a.com")
      (Some (lit "user" ++ hostKeySeparator ++ lit "name")) None = Ok key
    /\ actualKey key = Some (lit "user").
Proof.
  apply actualKey_cut_at_separator; try reflexivity.
  split; [reflexivity|].
  split; repeat constructor; vm_compute; intuition discriminate.
Defined.

(** * Further properties of the store reader *)

(** X5. A value that is the UTF-8 of a text with every surrogate paired
    is read back as that text without its first code unit: the whole
    first character when it is in the basic plane, the marker when the
    value is a marker byte followed by the UTF-8 of the payload. *)
Theorem read_returns_text (parse : jsstring -> UrlObject) (db : LevelDb)
    (url key text : jsstring) :
  truthy (host (parse url)) = true ->
  db_get_fault db = false ->
  well_formed text = true ->
  exists k,
    keyFromUrl parse url (Some key) None = Ok k
    /\ (db_records db !! k = Some (from text) ->
        read parse (Ok db) url key
        = ([OpenDb; DbGet k; DbClose], Ok (tail text))).
Proof.
  intros Hh Hg Hwf. rewrite keyFromUrl_ok by assumption.
  eexists. split; [reflexivity|].
  intros Hv. erewrite read_opened by (now apply keyFromUrl_ok).
  unfold lookup_result. rewrite Hg. unfold Bytes, jsstring in *.
  rewrite Hv. unfold unpackValue. now rewrite toString_from.
Qed.

Lemma read_returns_text_witness :
  read Sample.parse (Ok Sample.db) (lit "https://a.com") (lit "lang")
  = ([OpenDb; DbGet (from (lit "_https://a.com") ++ [0; 1] ++ from (lit "lang"));
      DbClose],
     Ok (lit "en")).
Proof.
  destruct (read_returns_text Sample.parse Sample.db (lit "https://a.com")
              (lit "lang") (1 :: lit "en") eq_refl eq_refl eq_refl)
    as (k & Hk & H).
  injection Hk as <-. apply H. vm_compute. reflexivity.
Defined.

Lemma run_completed_eq {A} (cs : list Cmd) :
  run (@Completed A) cs = (replicate (length cs) (Settle Finished), Completed).
Proof.
  induction cs as [|c cs IH]; [reflexivity|].
  cbn [run length replicate].
  assert (step (@Completed A) c = ([Settle Finished], Completed)) as ->
    by now destruct c.
  now rewrite IH.
Qed.

(** X6. For a URL without a host, [read] opens the store, makes no
    lookup, closes the store and fails with "host is required"; the
    first [next()] of [readAll] fails with the same error without any
    call on the store, not even [openDb], and the scan is over. *)
Theorem no_host_read_opens_scan_does_not (parse : jsstring -> UrlObject)
    (url : jsstring) :
  truthy (host (parse url)) = false ->
  (forall db key,
      read parse (Ok db) url key = ([OpenDb; DbClose], Throw HostRequired))
  /\ (forall openDb cs,
        run (NotStarted (readAll parse openDb url)) (CallNext :: cs)
        = (Settle (Rejected HostRequired)
             :: replicate (length cs) (Settle Finished),
           Completed)).
Proof.
  intros Hh. split.
  - intros db key. now apply read_no_host.
  - intros openDb cs. unfold readAll.
    rewrite keyFromUrl_throw by assumption.
    cbn [run step resume fmap list_fmap app]. now rewrite run_completed_eq.
Qed.

Lemma no_host_read_opens_scan_does_not_witness :
  read Sample.parse (Ok Sample.db) (lit "a.com") (lit "theme")
  = ([OpenDb; DbClose], Throw HostRequired)
  /\ run (NotStarted (readAll Sample.parse (Ok Sample.db) (lit "a.com")))
       [CallNext; CallNext]
     = ([Settle (Rejected HostRequired); Settle Finished], Completed).
Proof.
  destruct (no_host_read_opens_scan_does_not Sample.parse (lit "a.com") eq_refl)
    as [Hr Hs].
  split; [apply Hr|apply (Hs (Ok Sample.db) [CallNext])].
Defined.

(** X7. When [openDb] fails, [read] and the first [next()] of [readAll]
    fail with its error after that one call: there is no lookup, no
    iterator and no [close()], and the scan is over. *)
Theorem open_failure_is_propagated (parse : jsstring -> UrlObject)
    (e : Error) (url : jsstring) :
  (forall key, read parse (Throw e) url key = ([OpenDb], Throw e))
  /\ (truthy (host (parse url)) = true ->
      forall cs,
        run (NotStarted (readAll parse (Throw e) url)) (CallNext :: cs)
        = (Called OpenDb :: Settle (Rejected e)
             :: replicate (length cs) (Settle Finished),
           Completed)).
Proof.
  split; [reflexivity|].
  intros Hh cs. unfold readAll. rewrite !keyFromUrl_ok by assumption.
  cbn [run step resume fmap list_fmap app]. now rewrite run_completed_eq.
Qed.

Lemma open_failure_is_propagated_witness :
  run (NotStarted (readAll Sample.parse (Throw StoreError) (lit "https://a.com")))
    [CallNext; CallReturn]
  = ([Called OpenDb; Settle (Rejected StoreError); Settle Finished], Completed).
Proof.
  destruct (open_failure_is_propagated Sample.parse StoreError (lit "https://a.com"))
    as [_ H].
  apply (H eq_refl [CallReturn]).
Defined.

(** * Further properties of the scan *)

Lemma leb_total (a b : Bytes) : leb a b = true \/ leb b a = true.
Proof.
  revert b. induction a as [|x a IH]; intros [|y b]; cbn [leb]; auto.
  destruct (N.ltb_spec x y), (N.ltb_spec y x), (N.eqb_spec x y),
    (N.eqb_spec y x); cbn [orb andb]; auto; lia.
Qed.

Lemma leb_trans (a b c : Bytes) :
  leb a b = true -> leb b c = true -> leb a c = true.
Proof.
  revert b c. induction a as [|x a IH]; intros [|y b] [|z c]; cbn [leb];
    try easy.
  destruct (N.ltb_spec x y), (N.ltb_spec y z), (N.ltb_spec x z),
    (N.eqb_spec x y), (N.eqb_spec y z), (N.eqb_spec x z);
    cbn [orb andb]; try easy; try lia.
  apply IH.
Qed.

#[local] Instance key_le_total : Total key_le.
Proof.
  intros r1 r2. unfold key_le.
  destruct (leb_total r1.1 r2.1) as [-> | ->]; [left|right]; exact I.
Qed.

#[local] Instance key_le_trans : Transitive key_le.
Proof.
  intros r1 r2 r3. unfold key_le. rewrite !Is_true_true. apply leb_trans.
Qed.

Lemma yields_asyncIterable_fault (db : LevelDb) (l : list (Bytes * Bytes))
    (e : Error) :
  yields (asyncIterable db (((fun r => NextEntry r.1 r.2) <$> l) ++ [NextError e]))
  = l.
Proof.
  induction l as [|[k v] l IH]; cbn [fmap list_fmap app asyncIterable].
  - unfold complete, finally, iterator_end, call.
    now destruct (db_end_fault db).
  - cbn [yields fst snd]. now rewrite IH.
Qed.

Lemma yields_scan (db : LevelDb) (gte lte : Bytes) :
  yields (readAll_loop (asyncIterable db (db_iterator db gte lte)))
  = item_of_entry <$> reached db (scan_entries db gte lte).
Proof.
  rewrite yields_readAll_loop. unfold item_of_entry. f_equal.
  unfold db_iterator, reached, with_fault. fold (scan_entries db gte lte).
  destruct (db_next_fault db) as [n|].
  - rewrite <- fmap_take. apply yields_asyncIterable_fault.
  - apply yields_asyncIterable.
Qed.

Lemma elem_of_scan_entries (db : LevelDb) (gte lte k v : Bytes) :
  (k, v) ∈ scan_entries db gte lte
  <-> db_records db !! k = Some v /\ leb gte k && leb k lte = true.
Proof.
  unfold scan_entries. rewrite merge_sort_Permutation, list_elem_of_filter.
  unfold in_range. cbn [fst]. rewrite Is_true_true, elem_of_map_to_list.
  tauto.
Qed.

Lemma readAll_started (parse : jsstring -> UrlObject) (db : LevelDb)
    (url : jsstring) :
  truthy (host (parse url)) = true ->
  readAll parse (Ok db) url
  = after [OpenDb; DbIterator (from (origin (parse url)))
                     (from (origin (parse url)) ++ [1])]
      (readAll_loop
         (asyncIterable db
            (db_iterator db (from (origin (parse url)))
               (from (origin (parse url)) ++ [1])))).
Proof.
  intros Hh. unfold readAll. rewrite !keyFromUrl_ok by assumption.
  cbn [truthy default from_option id app]. rewrite app_nil_r.
  rewrite from_app_not_low by reflexivity. reflexivity.
Qed.

(** X8. For a URL with a non-empty host, the items [readAll] yields are
    the decodings, in ascending byte-wise order of the raw keys, of the
    records of the store whose key lies within the bounds, each record
    once; when the iterator fails after [n] entries, of the first [n]
    of them. *)
Theorem readAll_yields_the_range (parse : jsstring -> UrlObject)
    (db : LevelDb) (url : jsstring) :
  truthy (host (parse url)) = true ->
  exists lower upper entries,
    keyFromUrl parse url None None = Ok lower
    /\ keyFromUrl parse url (Some [1]) (Some []) = Ok upper
    /\ (forall k v,
          (k, v) ∈ entries
          <-> db_records db !! k = Some v /\ leb lower k && leb k upper = true)
    /\ NoDup entries
    /\ StronglySorted (fun r1 r2 => leb r1.1 r2.1 = true) entries
    /\ yields (readAll parse (Ok db) url)
       = item_of_entry
           <$> match db_next_fault db with
               | Some n => take n entries
               | None => entries
               end.
Proof.
  intros Hh.
  exists (from (origin (parse url))), (from (origin (parse url)) ++ [1]),
    (scan_entries db (from (origin (parse url)))
       (from (origin (parse url)) ++ [1])).
  split; [|split].
  - rewrite keyFromUrl_ok by assumption. cbn [truthy]. now rewrite app_nil_r.
  - rewrite keyFromUrl_ok by assumption.
    cbn [truthy default from_option id app].
    now rewrite from_app_not_low by reflexivity.
  - split; [apply elem_of_scan_entries|]. split; [|split].
    + unfold scan_entries. rewrite merge_sort_Permutation.
      apply NoDup_filter, NoDup_map_to_list.
    + pose proof (StronglySorted_merge_sort key_le
                    (filter (in_range (from (origin (parse url)))
                               (from (origin (parse url)) ++ [1]))
                       (map_to_list (db_records db)))) as Hs.
      fold (scan_entries db (from (origin (parse url)))
              (from (origin (parse url)) ++ [1])) in Hs.
      induction Hs as [|r l _ IH Hr]; constructor; [exact IH|].
      eapply Forall_impl; [exact Hr|].
      intros r' Hle. unfold key_le in Hle. now apply Is_true_true.
    + rewrite readAll_started by assumption.
      rewrite yields_after, yields_scan. reflexivity.
Qed.

Lemma readAll_yields_the_range_witness :
  exists entries,
    (forall k v,
        (k, v) ∈ entries
        <-> db_records Sample.failing !! k = Some v
            /\ leb (from (lit "_https://a.com")) k
                && leb k (from (lit "_https://a.com") ++ [1]) = true)
    /\ yields (readAll Sample.parse (Ok Sample.failing) (lit "https://a.com"))
       = item_of_entry <$> take 1 entries.
Proof.
  destruct (readAll_yields_the_range Sample.parse Sample.failing
              (lit "https://a.com") eq_refl)
    as (lower & upper & entries & Hl & Hu & Hin & _ & _ & H).
  injection Hl as <-. injection Hu as <-.
  exists entries. split; [exact Hin|exact H].
Defined.

(** X9. What [read] returns is what [readAll] yields.  For a URL whose
    parsed origin is plain, an application key that is not empty, has
    every surrogate paired and no separator, and a store whose iterator
    does not fail: when [read] returns a text for the key, [readAll]
    yields the item of that key and that text. *)
Theorem read_value_is_scanned (parse : jsstring -> UrlObject) (db : LevelDb)
    (url k x : jsstring) :
  plain_url (parse url) ->
  k <> [] -> well_formed k = true -> has_sep k = false ->
  db_next_fault db = None ->
  (read parse (Ok db) url k).2 = Ok x ->
  {| item_key := Some k; item_value := x |}
    ∈ yields (readAll parse (Ok db) url).
Proof.
  intros Hu Hk Hwf Hsep Hf Hread.
  pose proof (origin_plain _ Hu) as Ho.
  pose proof (from_ascii _ (plain_ascii _ Ho)) as Hfrom.
  assert (keyFromUrl parse url (Some k) None
          = Ok (origin (parse url) ++ [0; 1] ++ from k)) as Hkey.
  { rewrite keyFromUrl_plain by assumption.
    cbn [default from_option id]. rewrite suffix_bytes by reflexivity.
    now destruct k. }
  rewrite (read_opened _ _ _ _ _ Hkey) in Hread. cbn [snd] in Hread.
  unfold lookup_result in Hread.
  revert Hread. destruct (db_get_fault db); [intros Hx; discriminate Hx|].
  destruct (db_records db !! _) as [v|] eqn:Hv; [|intros Hx; discriminate Hx].
  intros [= <-].
  rewrite readAll_started by apply Hu.
  rewrite yields_after, yields_scan. unfold reached. rewrite Hf.
  apply list_elem_of_fmap.
  exists (origin (parse url) ++ [0; 1] ++ from k, v). split.
  - unfold item_of_entry. cbn [fst snd]. f_equal. symmetry.
    apply actualKey_plain_entry; auto.
  - apply elem_of_scan_entries. split; [exact Hv|].
    rewrite Hfrom. now rewrite leb_prefix, leb_app_common.
Qed.

Lemma read_value_is_scanned_witness :
  {| item_key := Some (lit "theme"); item_value := lit "dark" |}
    ∈ yields (readAll Sample.parse (Ok Sample.db) (lit "https://a.com")).
Proof.
  apply read_value_is_scanned; try reflexivity; try discriminate.
  split; [reflexivity|].
  split; repeat constructor; vm_compute; intuition discriminate.
Defined.

Lemma next_calls_app {A} (o1 o2 : list (Obs A)) :
  next_calls (o1 ++ o2) = (next_calls o1 + next_calls o2)%nat.
Proof.
  induction o1 as [|[[]|s] o1 IH]; cbn [app next_calls]; lia.
Qed.

Lemma next_calls_called {A} (t : list Event) :
  next_calls (@Called A <$> t) = next_events t.
Proof.
  induction t as [|[] t IH]; cbn [fmap list_fmap next_calls next_events]; lia.
Qed.

Lemma next_events_app (t1 t2 : list Event) :
  next_events (t1 ++ t2) = (next_events t1 + next_events t2)%nat.
Proof.
  induction t1 as [|[] t1 IH]; cbn [app next_events]; lia.
Qed.

Lemma lazy_after {A} (t0 : list Event) (g : Gen A) :
  next_events t0 = O -> lazy g -> lazy (after t0 g).
Proof.
  intros H0. destruct g as [t|t e|t a next r]; cbn [after lazy];
    rewrite next_events_app, H0; auto.
Qed.

Lemma lazy_readAll_loop (db : LevelDb) (results : list NextResult) :
  lazy (readAll_loop (asyncIterable db results)).
Proof.
  induction results as [|[k v|e] rest IH]; cbn [asyncIterable].
  - unfold complete, finally, iterator_end, call.
    destruct (db_end_fault db); cbn; lia.
  - cbn [readAll_loop lazy]. split; [cbn; lia|]. split; [|exact IH].
    unfold finally, iterator_end, db_close, call.
    now destruct (db_end_fault db).
  - unfold complete, finally, iterator_end, call.
    destruct (db_end_fault db); cbn; lia.
Qed.

Lemma lazy_readAll (parse : jsstring -> UrlObject) (openDb : result LevelDb)
    (url : jsstring) :
  lazy (readAll parse openDb url).
Proof.
  unfold readAll.
  destruct (keyFromUrl parse url None None); [|cbn; lia].
  destruct (keyFromUrl parse url (Some [1]) (Some [])); [|cbn; lia].
  destruct openDb as [db|e]; [|cbn; lia].
  apply lazy_after; [reflexivity|apply lazy_readAll_loop].
Qed.

Lemma run_lazy {A} (cs : list Cmd) (st : GenState A) :
  lazy_state st -> (next_calls (run st cs).1 <= next_requests cs)%nat.
Proof.
  revert st. induction cs as [|c cs IH]; intros st Hst; [cbn; lia|].
  cbn [run].
  assert (forall g : Gen A, lazy g ->
            (next_calls (resume g).1 <= 1)%nat /\ lazy_state (resume g).2)
    as Hres.
  { intros [t|t e|t a next r]; cbn [resume lazy fst snd lazy_state];
      rewrite next_calls_app, next_calls_called; cbn [next_calls];
      intuition lia. }
  assert ((next_calls (step st c).1
           <= match c with CallNext => 1 | CallReturn => 0 end)%nat
          /\ lazy_state (step st c).2) as [Hn Hl].
  { destruct st as [g|next r|], c; cbn [step fst snd lazy_state] in *;
      try (now apply Hres); try (split; [cbn; lia|exact I]).
    rewrite next_calls_app, next_calls_called. destruct Hst as [_ ->].
    split; [cbn; lia|exact I]. }
  destruct (step st c) as [o st']. specialize (IH st' Hl).
  destruct (run st' cs) as [o' st'']. cbn [fst snd] in *.
  rewrite next_calls_app. destruct c; cbn [next_requests]; lia.
Qed.

(** X10. [readAll] reads nothing ahead: however the caller drives the
    scan, the calls of [iterator.next] are never more than the calls of
    [next()] the caller made. *)
Theorem readAll_no_read_ahead (parse : jsstring -> UrlObject)
    (openDb : result LevelDb) (url : jsstring) (cs : list Cmd) :
  (next_calls (run (NotStarted (readAll parse openDb url)) cs).1
   <= next_requests cs)%nat.
Proof. apply run_lazy. apply lazy_readAll. Qed.

(** * readAllFromDb *)

Lemma yields_rows_loop_ok (rows : list Row) (tl : list (result Row)) :
  yields (rows_loop ((Ok <$> rows) ++ tl)) = rows ++ yields (rows_loop tl).
Proof.
  induction rows as [|r rows IH]; [reflexivity|].
  cbn [fmap list_fmap app rows_loop yields]. now rewrite IH.
Qed.

Lemma closed_once_at_end {A} (s : Settled A) (cs : list Cmd) :
  terminal s ->
  closed_once ([Called DbClose; Settle s] ++ (run (@Completed A) cs).1).
Proof.
  intros Hs. exists [], s, (run (@Completed A) cs).1.
  split; [reflexivity|]. split; [assumption|].
  split; [intros ev; apply not_elem_of_nil|].
  destruct (run (@Completed A) cs) as [post st] eqn:R.
  now destruct (run_completed _ _ _ R).
Qed.

Lemma closed_once_later {A} (a : A) (obs : list (Obs A)) :
  closed_once obs -> closed_once (Settle (Yielded a) :: obs).
Proof.
  intros (pre & s & post & -> & Hs & Hpre & Hpost).
  exists (Settle (Yielded a) :: pre), s, post.
  split; [reflexivity|]. split; [assumption|]. split; [|assumption].
  intros ev Hin. apply elem_of_cons in Hin as [Hin|Hin]; [discriminate|].
  now apply (Hpre ev).
Qed.

Lemma rows_resumed (cs : list Cmd) :
  forall (steps : list (result Row)) (obs : list (Obs Row)),
    run (Suspended (rows_loop steps) (finally (ret tt) db_close)) cs
    = (obs, Completed) ->
    closed_once obs.
Proof.
  induction cs as [|c cs IH]; intros steps obs H; cbn [run] in H;
    [discriminate H|].
  destruct c; cbn [step] in H.
  - destruct steps as [|[row|e] rest]; cbn [rows_loop] in H.
    + cbn in H. destruct (run Completed cs) as [post st] eqn:R.
      injection H as <- _.
      replace post with (run (@Completed Row) cs).1 by now rewrite R.
      apply (closed_once_at_end Finished). now left.
    + cbn [resume fmap list_fmap app] in H.
      destruct (run (Suspended (rows_loop rest) (finally (ret tt) db_close)) cs)
        as [o' st] eqn:R.
      injection H as <- ->. apply closed_once_later. now apply (IH rest).
    + cbn in H. destruct (run Completed cs) as [post st] eqn:R.
      injection H as <- _.
      replace post with (run (@Completed Row) cs).1 by now rewrite R.
      apply (closed_once_at_end (Rejected e)). right. eauto.
  - cbn in H. destruct (run Completed cs) as [post st] eqn:R.
    injection H as <- _.
    replace post with (run (@Completed Row) cs).1 by now rewrite R.
    apply (closed_once_at_end Finished). now left.
Qed.

(** X11. [readAllFromDb] yields the rows of the table in their order, up
    to the row at which the statement throws; and once it was started and
    the caller left it completed (by reading it to its end, by that
    error, or by [return()] at any row), it made exactly one call,
    [db.close()], right before the promise of the last call settled. *)
Theorem readAllFromDb_rows_then_close (db : Database) :
  yields (readAllFromDb db)
  = match sql_fault db with
    | Some n => take n (item_table db)
    | None => item_table db
    end
  /\ (forall cs obs,
        run (NotStarted (readAllFromDb db)) (CallNext :: cs) = (obs, Completed) ->
        closed_once obs).
Proof.
  split.
  - unfold readAllFromDb, sql_steps. destruct (sql_fault db) as [n|].
    + rewrite yields_rows_loop_ok. cbn. apply app_nil_r.
    + rewrite <- (app_nil_r (Ok <$> item_table db)), yields_rows_loop_ok.
      cbn. apply app_nil_r.
  - intros cs obs H. apply (rows_resumed (CallNext :: cs) (sql_steps db)).
    exact H.
Qed.

Lemma readAllFromDb_rows_then_close_witness :
  closed_once
    (run (NotStarted (readAllFromDb SampleRows.failing)) [CallNext; CallNext]).1.
Proof.
  destruct (readAllFromDb_rows_then_close SampleRows.failing) as [_ H].
  apply (H [CallNext]). reflexivity.
Defined.

(** * An error of [iterator.end] *)

Lemma fails_with_after {A} (e : Error) (t0 : list Event) (g : Gen A) :
  fails_with e g -> fails_with e (after t0 g).
Proof.
  destruct g as [t|t e'|t a next r]; cbn [after fails_with]; auto.
  intros [-> [pre ->]]. split; [reflexivity|].
  exists (t0 ++ pre). now rewrite app_assoc.
Qed.

Lemma fails_with_readAll_loop (db : LevelDb) (results : list NextResult) :
  db_end_fault db = true ->
  fails_with StoreError (readAll_loop (asyncIterable db results)).
Proof.
  intros Hend.
  induction results as [|[k v|e] rest IH]; cbn [asyncIterable].
  - unfold complete, finally, iterator_end, call. rewrite Hend.
    cbn. split; [reflexivity|]. now exists [IterNext].
  - cbn [readAll_loop fails_with]. split; [|exact IH].
    unfold finally, iterator_end, db_close, call. now rewrite Hend.
  - unfold complete, finally, iterator_end, call. rewrite Hend.
    cbn. split; [reflexivity|]. now exists [IterNext].
Qed.

Lemma resume_fails_with {A} (e : Error) (cs : list Cmd) (g : Gen A)
    (obs : list (Obs A)) :
  (forall next o,
      fails_with e next ->
      run (Suspended next ([IterEnd; DbClose], Throw e)) cs = (o, Completed) ->
      exists pre post : list (Obs A),
        o = pre ++ [Called IterEnd; Called DbClose; Settle (Rejected e)] ++ post
        /\ forall ev, Called ev ∉ post) ->
  fails_with e g ->
  (let '(o, st') := resume g in
   let '(o', st'') := run st' cs in (o ++ o', st'')) = (obs, Completed) ->
  exists pre post : list (Obs A),
    obs = pre ++ [Called IterEnd; Called DbClose; Settle (Rejected e)] ++ post
    /\ forall ev, Called ev ∉ post.
Proof.
  intros IH Hg H. destruct g as [t|t e'|t a next r]; cbn [fails_with resume] in *.
  - destruct Hg.
  - destruct Hg as [-> [pre ->]].
    destruct (run Completed cs) as [post st'] eqn:R.
    injection H as <- _. destruct (run_completed _ _ _ R) as [_ Hno].
    exists (Called <$> pre), post. split; [|exact Hno].
    rewrite fmap_app, <- !app_assoc. reflexivity.
  - destruct Hg as [-> Hnext].
    destruct (run (Suspended next ([IterEnd; DbClose], Throw e)) cs)
      as [o' st'] eqn:R.
    injection H as <- ->.
    destruct (IH _ _ Hnext R) as (pre & post & -> & Hno).
    exists ((Called <$> t) ++ [Settle (Yielded a)] ++ pre), post.
    split; [|exact Hno]. now rewrite <- !app_assoc.
Qed.

Lemma run_fails_with {A} (e : Error) (cs : list Cmd) :
  forall (next : Gen A) (obs : list (Obs A)),
    fails_with e next ->
    run (Suspended next ([IterEnd; DbClose], Throw e)) cs = (obs, Completed) ->
    exists pre post : list (Obs A),
      obs = pre ++ [Called IterEnd; Called DbClose; Settle (Rejected e)] ++ post
      /\ forall ev, Called ev ∉ post.
Proof.
  induction cs as [|c cs IH]; intros next obs Hnext H; cbn [run] in H.
  - discriminate H.
  - destruct c; cbn [step] in H.
    + now apply (resume_fails_with e cs next obs IH).
    + cbn [fst snd fmap list_fmap] in H.
      destruct (run Completed cs) as [post st'] eqn:R.
      injection H as <- _. destruct (run_completed _ _ _ R) as [_ Hno].
      now exists [], post.
Qed.

(** X12. An error of [iterator.end] is not lost.  With a store whose
    [iterator.end] reports an error, a started scan that the caller left
    completed never finished cleanly: after the two releases, the promise
    of its completing call (the last [next()], or [return()]) was
    rejected with the error of the store, and no call followed. *)
Theorem scan_end_failure_rejects (parse : jsstring -> UrlObject)
    (db : LevelDb) (url : jsstring) (cs : list Cmd) (obs : list (Obs Item)) :
  truthy (host (parse url)) = true ->
  db_end_fault db = true ->
  run (NotStarted (readAll parse (Ok db) url)) (CallNext :: cs) = (obs, Completed) ->
  exists pre post,
    obs = pre ++ [Called IterEnd; Called DbClose; Settle (Rejected StoreError)]
            ++ post
    /\ forall ev, Called ev ∉ post.
Proof.
  intros Hh Hend H. cbn [run step] in H.
  apply (resume_fails_with StoreError cs (readAll parse (Ok db) url) obs);
    [apply run_fails_with| |exact H].
  rewrite readAll_started by assumption.
  apply fails_with_after. now apply fails_with_readAll_loop.
Qed.

Lemma scan_end_failure_rejects_witness :
  exists pre post,
    (run (NotStarted
            (readAll Sample.parse
               (Ok {| db_records := Sample.records; db_get_fault := false;
                      db_next_fault := None; db_end_fault := true |})
               (lit "https://a.com")))
       [CallNext; CallReturn]).1
    = pre ++ [Called IterEnd; Called DbClose; Settle (Rejected StoreError)] ++ post
    /\ forall ev, Called ev ∉ post.
Proof.
  apply (scan_end_failure_rejects Sample.parse
           {| db_records := Sample.records; db_get_fault := false;
              db_next_fault := None; db_end_fault := true |}
           (lit "https://a.com") [CallReturn] _ eq_refl eq_refl).
  vm_compute. reflexivity.
Defined.

(** * The bounds of the scan and the entry keys *)




Lemma entry_key_bytes (parse : jsstring -> UrlObject) (url k : jsstring) :
  truthy (host (parse url)) = true ->
  keyFromUrl parse url (Some k) None
  = Ok (from (origin (parse url))
        ++ match k with [] => [] | _ :: _ => [0; 1] ++ from k end).
Proof.
  intros Hh. rewrite keyFromUrl_ok by assumption.
  destruct k as [|c k]; cbn [truthy default from_option id];
    [now rewrite !app_nil_r|].
  change (hostKeySeparator ++ c :: k) with (0 :: [1] ++ c :: k).
  now rewrite from_app_not_low by reflexivity.
Qed.

Lemma origin_key_bytes (parse : jsstring -> UrlObject) (url : jsstring) :
  truthy (host (parse url)) = true ->
  keyFromUrl parse url None None = Ok (from (origin (parse url))).
Proof.
  intros Hh. rewrite keyFromUrl_ok by assumption.
  cbn [truthy]. now rewrite app_nil_r.
Qed.






Lemma toString_from_app (a : jsstring) (bs : Bytes) :
  toString (from a ++ bs) = toString (from a) ++ toString bs.
Proof.
  remember (length a) as n eqn:Hn. revert a Hn.
  induction n as [n IH] using lt_wf_ind.
  intros [|c rest] Hn; [reflexivity|].
  assert (toString (from rest ++ bs) = toString (from rest) ++ toString bs)
    as IHrest by (apply (IH (length rest)); [subst n; simpl; lia|reflexivity]).
  assert (forall X, toString (replacement ++ X) = fffd :: toString X) as Hrep
    by reflexivity.
  cbn [from].
  destruct (N.ltb_spec c 128) as [H1|H1].
  { cbn [app toString]. destruct (N.ltb_spec c 128); [|lia].
    now rewrite IHrest. }
  destruct (N.ltb_spec c 2048) as [H2|H2].
  { rewrite <- app_assoc, !toString_enc2 by lia. now rewrite IHrest. }
  destruct (is_high c) eqn:Hh.
  - destruct rest as [|d rest']; [now rewrite Hrep|].
    destruct (is_low d) eqn:Hl.
    + rewrite <- app_assoc, !toString_enc4 by assumption.
      cbn [app]. do 2 f_equal.
      apply (IH (length rest')); [subst n; simpl; lia|reflexivity].
    + rewrite <- app_assoc, !Hrep. now rewrite IHrest.
  - destruct (is_low c) eqn:Hl;
      [rewrite <- app_assoc, !Hrep; now rewrite IHrest|].
    destruct (N.ltb_spec c 65536) as [H3|H3];
      [|rewrite <- app_assoc, !Hrep; now rewrite IHrest].
    rewrite <- app_assoc, !toString_enc3 by (assumption || lia).
    now rewrite IHrest.
Qed.

Lemma no_sep_toString (bs : Bytes) :
  has_sep bs = false -> has_sep (toString bs) = false.
Proof.
  intros H. destruct (has_sep (toString bs)) eqn:E; [|reflexivity].
  apply has_sep_toString in E. congruence.
Qed.

(** C2, as the code has it.  For a URL with a non-empty host whose
    origin-only key does not hold the bytes 0x00 0x01, and an application
    key that is not empty, has every surrogate paired and does not hold
    the separator, the second piece of the split of the entry key is the
    application key. *)
Theorem actualKey_entry_key (parse : jsstring -> UrlObject)
    (url k : jsstring) :
  truthy (host (parse url)) = true ->
  (forall lower,
      keyFromUrl parse url None None = Ok lower -> has_sep lower = false) ->
  k <> [] -> well_formed k = true -> has_sep k = false ->
  exists key,
    keyFromUrl parse url (Some k) None = Ok key
    /\ actualKey key = Some k.
Proof.
  intros Hh Ho Hk Hwf Hsep.
  specialize (Ho _ (origin_key_bytes parse url Hh)).
  eexists. split; [now apply entry_key_bytes|].
  destruct k as [|c k]; [congruence|].
  unfold actualKey. rewrite toString_from_app.
  rewrite (toString_ascii_app [0; 1])
    by (repeat constructor; vm_compute; reflexivity).
  rewrite (toString_from (c :: k)) by assumption.
  change [0; 1] with hostKeySeparator.
  rewrite split_one_sep; [reflexivity| |assumption].
  now apply no_sep_toString.
Qed.

Lemma actualKey_entry_key_witness :
  exists key,
    keyFromUrl Unusual.parse Unusual.url_soh (Some (lit "theme")) None = Ok key
    /\ actualKey key = Some (lit "theme").
Proof.
  apply actualKey_entry_key; try reflexivity; try discriminate.
  intros lower [= <-]. vm_compute. reflexivity.
Defined.

(** C2 fails as stated: from the entry key of the empty application key
    no key is recovered, from the entry key of an application key that
    holds the separator only the part before it, a lone surrogate comes
    back as U+FFFD, and under a host that holds the separator what is
    recovered is the rest of the host. *)
Lemma actualKey_not_inverse :
  (exists key,
     keyFromUrl Sample.parse (lit "https://a.com") (Some []) None = Ok key
     /\ actualKey key = None)
  /\ (exists key,
        keyFromUrl Sample.parse (lit "https://a.com")
          (Some (lit "a" ++ [0; 1] ++ lit "b")) None = Ok key
        /\ actualKey key = Some (lit "a"))
  /\ (exists key,
        keyFromUrl Sample.parse (lit "https://a.com") (Some [0xD800]) None = Ok key
        /\ actualKey key = Some [0xFFFD])
  /\ (exists key,
        keyFromUrl Unusual.parse Unusual.url_sep (Some (lit "theme")) None = Ok key
        /\ actualKey key = Some (lit "x")).
Proof.
  split; [|split; [|split]].
  - exists (from (lit "_https://a.com")). split; vm_compute; reflexivity.
  - exists (from (lit "_https://a.com" ++ [0; 1] ++ lit "a" ++ [0; 1] ++ lit "b")).
    split; vm_compute; reflexivity.
  - exists (from (lit "_https://a.com" ++ [0; 1; 0xD800])).
    split; vm_compute; reflexivity.
  - exists (from (lit "_https://a.com" ++ [0; 1] ++ lit "x" ++ [0; 1] ++ lit "theme")).
    split; vm_compute; reflexivity.
Qed.

(** C3, as the code has it.  [keyFromUrl] fails exactly when
    [urllib.parse] throws, with what it threw, or when the parsed URL has
    no non-empty host, with "host is required", whatever the key;
    otherwise the origin key is the bytes of [_<scheme>://<host>] for a
    protocol [<scheme>:], and of [_https://<host>] when the parsed URL
    has no protocol. *)
Theorem keyFromUrl_host_required (url_parse : jsstring -> result UrlObject)
    (url : jsstring) (key separator : option jsstring) :
  (forall e,
      keyFromUrl_parsing url_parse url key separator = Throw e
      <-> url_parse url = Throw e
          \/ (exists u, url_parse url = Ok u
                        /\ truthy (host u) = false /\ e = HostRequired))
  /\ (forall u,
        url_parse url = Ok u -> truthy (host u) = true ->
        exists h,
          host u = Some h /\ h <> []
          /\ (forall scheme,
                protocol u = Some (scheme ++ lit ":") ->
                keyFromUrl_parsing url_parse url None separator
                = Ok (from (lit "_" ++ scheme ++ lit "://" ++ h)))
          /\ (truthy (protocol u) = false ->
              keyFromUrl_parsing url_parse url None separator
              = Ok (from (lit "_https://" ++ h)))).
Proof.
  unfold keyFromUrl_parsing. split.
  - intros e. destruct (url_parse url) as [u|e'].
    + destruct (truthy (host u)) eqn:Hh.
      * rewrite (keyFromUrl_ok (fun _ => u)) by assumption. split; [discriminate|].
        intros [H|(u' & [= <-] & H & _)]; [discriminate H|congruence].
      * rewrite (keyFromUrl_throw (fun _ => u)) by assumption. split.
        -- intros [= <-]. right. now exists u.
        -- intros [H|(_ & _ & _ & ->)]; [discriminate H|reflexivity].
    + split.
      * intros [= ->]. now left.
      * intros [[= ->]|(u & H & _)]; [reflexivity|discriminate H].
  - intros u -> Hh. rewrite (keyFromUrl_ok (fun _ => u)) by assumption.
    unfold origin, effective_protocol.
    destruct (host u) as [[|c h]|]; try discriminate.
    exists (c :: h). repeat split; [discriminate| |].
    + intros scheme ->. rewrite app_nil_r.
      assert (truthy (Some (scheme ++ lit ":")) = true) as ->
        by (now destruct scheme).
      cbn [default from_option id].
      now rewrite <- (app_assoc scheme).
    + intros ->. cbn [default truthy]. now rewrite app_nil_r.
Qed.

Lemma keyFromUrl_host_required_witness :
  keyFromUrl_parsing Unusual.url_parse (lit "//user@a.com") None None
  = Ok (from (lit "_https://" ++ lit "a.com")).
Proof.
  destruct (keyFromUrl_host_required Unusual.url_parse (lit "//user@a.com")
              None None) as [_ H].
  destruct (H _ eq_refl eq_refl) as (h & Hh & _ & _ & Hd).
  injection Hh as <-. apply Hd. reflexivity.
Defined.

(** C3 fails as stated: on a URL whose user part has a malformed escape
    [urllib.parse] throws, and [keyFromUrl] fails with that error, which
    is not "host is required". *)
Lemma keyFromUrl_parse_error :
  keyFromUrl_parsing Unusual.url_parse Unusual.url_escape None None
  = Throw UrlError
  /\ keyFromUrl_parsing Unusual.url_parse Unusual.url_escape
       (Some (lit "theme")) None
     = Throw UrlError
  /\ UrlError <> HostRequired.
Proof. repeat split; try (vm_compute; reflexivity). discriminate. Qed.

(** * What is read for a value *)

(** C4, as the code has it.  For a URL with a host and a store that
    opens and answers, [read] of a key with no record under the derived
    entry key fails with the not-found error; when there is a record
    under exactly that key, [read] returns the text of its value without
    the first code unit of that text: the value without its marker byte
    when it starts with an ASCII byte, the empty string when the value
    is empty. *)
Theorem read_not_found_or_value (parse : jsstring -> UrlObject)
    (db : LevelDb) (url key : jsstring) :
  truthy (host (parse url)) = true ->
  db_get_fault db = false ->
  exists k,
    keyFromUrl parse url (Some key) None = Ok k
    /\ (db_records db !! k = None ->
        read parse (Ok db) url key = ([OpenDb; DbGet k; DbClose], Throw NotFound))
    /\ (forall v,
          db_records db !! k = Some v ->
          read parse (Ok db) url key
          = ([OpenDb; DbGet k; DbClose], Ok (tail (toString v)))
          /\ (forall marker payload,
                v = marker :: payload -> marker < 0x80 ->
                tail (toString v) = toString payload)
          /\ (v = [] -> tail (toString v) = [])).
Proof.
  intros Hh Hg. rewrite keyFromUrl_ok by assumption.
  eexists. split; [reflexivity|].
  erewrite read_opened by (now apply keyFromUrl_ok).
  unfold lookup_result. rewrite Hg. unfold Bytes, jsstring in *.
  split.
  - now intros ->.
  - intros v ->. split; [reflexivity|]. split.
    + intros marker payload -> Hm. now apply unpackValue_ascii.
    + now intros ->.
Qed.

Lemma read_not_found_or_value_witness :
  read Sample.parse (Ok Sample.db) (lit "http://a.com") (lit "missing")
  = ([OpenDb; DbGet (from (lit "_http://a.com") ++ [0; 1] ++ from (lit "missing"));
      DbClose],
     Throw NotFound)
  /\ read Sample.parse (Ok Sample.db) (lit "https://a.com") (lit "theme")
     = ([OpenDb; DbGet (from (lit "_https://a.com") ++ [0; 1] ++ from (lit "theme"));
         DbClose],
        Ok (lit "dark")).
Proof.
  split.
  - destruct (read_not_found_or_value Sample.parse Sample.db
                (lit "http://a.com") (lit "missing") eq_refl eq_refl)
      as (k & Hk & Hnone & _).
    injection Hk as <-. apply Hnone. vm_compute. reflexivity.
  - destruct (read_not_found_or_value Sample.parse Sample.db
                (lit "https://a.com") (lit "theme") eq_refl eq_refl)
      as (k & Hk & _ & Hsome).
    injection Hk as <-.
    destruct (Hsome (1 :: from (lit "dark"))) as [H _];
      [vm_compute; reflexivity|exact H].
Defined.

(** C4 fails as stated: for the stored value C3 A9 61 [read] returns the
    text [a], whereas the value without its first byte, A9 61, is the
    text U+FFFD [a]. *)
Lemma read_not_byte_strip :
  read Sample.parse (Ok Unusual.db) (lit "https://a.com") (lit "theme")
  = ([OpenDb; DbGet (from (lit "_https://a.com") ++ [0; 1] ++ from (lit "theme"));
      DbClose],
     Ok (lit "a"))
  /\ db_records Unusual.db
       !! (from (lit "_https://a.com") ++ [0; 1] ++ from (lit "theme"))
     = Some [0xC3; 0xA9; 0x61]
  /\ toString [0xA9; 0x61] = 0xFFFD :: lit "a".
Proof. repeat split; vm_compute; reflexivity. Qed.

Lemma leb_antisym (a b : Bytes) :
  leb a b = true -> leb b a = true -> a = b.
Proof.
  revert b. induction a as [|x a IH]; intros [|y b]; cbn [leb]; try easy.
  destruct (N.ltb_spec x y), (N.ltb_spec y x), (N.eqb_spec x y),
    (N.eqb_spec y x); cbn [orb andb]; try easy; try lia.
  intros H1 H2. subst y. f_equal. now apply IH.
Qed.

Lemma scan_entries_lower (db : LevelDb) (gte lte v : Bytes) :
  db_records db !! gte = Some v -> leb gte lte = true ->
  exists rest, scan_entries db gte lte = (gte, v) :: rest.
Proof.
  intros Hv Hle.
  assert ((gte, v) ∈ scan_entries db gte lte) as Hin.
  { apply elem_of_scan_entries. split; [exact Hv|].
    now rewrite leb_refl, Hle. }
  pose proof (StronglySorted_merge_sort key_le
                (filter (in_range gte lte) (map_to_list (db_records db))))
    as Hs.
  fold (scan_entries db gte lte) in Hs.
  destruct (scan_entries db gte lte) as [|[k0 v0] rest] eqn:E;
    [now apply not_elem_of_nil in Hin|].
  exists rest. f_equal.
  assert ((k0, v0) ∈ scan_entries db gte lte) as H0
    by (rewrite E; apply elem_of_cons; now left).
  apply elem_of_scan_entries in H0 as [Hv0 Hr0].
  apply andb_true_iff in Hr0 as [Hge _].
  apply elem_of_cons in Hin as [Heq|Hin]; [now symmetry|].
  apply StronglySorted_inv in Hs as [_ Hall].
  rewrite Forall_forall in Hall. specialize (Hall _ Hin).
  unfold key_le in Hall. cbn [fst] in Hall. apply Is_true_true in Hall.
  assert (k0 = gte) as -> by now apply leb_antisym.
  unfold Bytes in *. congruence.
Qed.

Lemma actualKey_none (key : Bytes) :
  has_sep key = false -> actualKey key = None.
Proof.
  intros H. unfold actualKey.
  now rewrite split_no_sep by now apply no_sep_toString.
Qed.

(** C8, as the code has it.  The scan includes its lower bound.  For a
    URL with a non-empty host whose origin-only key does not hold the
    bytes 0x00 0x01, a store with a record under exactly that key, and
    an iterator that does not fail at once, the first [next()] of
    [readAll] yields the item of that record: it has no application key
    ([undefined]) and, as value, the text of the raw value without its
    first code unit, which is the raw value without its marker byte when
    it starts with an ASCII byte, and the empty string when it is
    empty. *)
Theorem readAll_yields_origin_record (parse : jsstring -> UrlObject)
    (db : LevelDb) (url : jsstring) (v : Bytes) :
  truthy (host (parse url)) = true ->
  (forall lower,
      keyFromUrl parse url None None = Ok lower ->
      db_records db !! lower = Some v /\ has_sep lower = false) ->
  db_next_fault db <> Some O ->
  exists lower upper,
    keyFromUrl parse url None None = Ok lower
    /\ (run (NotStarted (readAll parse (Ok db) url)) [CallNext]).1
       = [Called OpenDb; Called (DbIterator lower upper); Called IterNext;
          Settle (Yielded {| item_key := None;
                             item_value := tail (toString v) |})]
    /\ (forall marker payload,
          v = marker :: payload -> marker < 0x80 ->
          tail (toString v) = toString payload)
    /\ (v = [] -> tail (toString v) = []).
Proof.
  intros Hh Hrec Hf.
  destruct (Hrec _ (origin_key_bytes parse url Hh)) as [Hv Hsep].
  exists (from (origin (parse url))), (from (origin (parse url)) ++ [1]).
  split; [now apply origin_key_bytes|]. split; [|split].
  - rewrite readAll_started by assumption.
    destruct (scan_entries_lower db (from (origin (parse url)))
                (from (origin (parse url)) ++ [1]) v Hv (leb_prefix _ _))
      as [rest E].
    unfold db_iterator.
    fold (scan_entries db (from (origin (parse url)))
            (from (origin (parse url)) ++ [1])).
    rewrite E. cbn [fmap list_fmap fst snd].
    assert (exists tl,
              with_fault (db_next_fault db)
                (NextEntry (from (origin (parse url))) v
                   :: ((fun r => NextEntry r.1 r.2) <$> rest))
              = NextEntry (from (origin (parse url))) v :: tl) as [tl ->].
    { destruct (db_next_fault db) as [[|n]|]; [congruence| |];
        cbn [with_fault take app]; eauto. }
    cbn [asyncIterable readAll_loop after run step resume fmap list_fmap app fst].
    unfold unpackValue, slice1. now rewrite (actualKey_none _ Hsep).
  - intros marker payload -> Hm. now apply unpackValue_ascii.
  - now intros ->.
Qed.

Lemma readAll_yields_origin_record_witness :
  exists upper,
    (run (NotStarted (readAll Sample.parse (Ok Sample.db) (lit "https://a.com")))
       [CallNext]).1
    = [Called OpenDb;
       Called (DbIterator (from (lit "_https://a.com")) upper);
       Called IterNext;
       Settle (Yielded {| item_key := None; item_value := lit "meta" |})].
Proof.
  destruct (readAll_yields_origin_record Sample.parse Sample.db
              (lit "https://a.com") (1 :: from (lit "meta")) eq_refl)
    as (lower & upper & Hl & H & _).
  - intros lower [= <-]. split; vm_compute; reflexivity.
  - discriminate.
  - injection Hl as <-. exists upper. exact H.
Defined.

(** C8 fails as stated: for a record C3 A9 61 under the origin-only key
    the value yielded is [a], not the text U+FFFD [a] of A9 61; under a
    host that holds the separator the item of the origin-only key has an
    application key; and when the iterator fails at once the record is
    not yielded and the error is raised. *)
Lemma origin_record_not_byte_stripped :
  (run (NotStarted (readAll Sample.parse (Ok Unusual.db) (lit "https://a.com")))
     [CallNext]).1
  = [Called OpenDb;
     Called (DbIterator (from (lit "_https://a.com"))
               (from (lit "_https://a.com") ++ [1]));
     Called IterNext;
     Settle (Yielded {| item_key := None; item_value := lit "a" |})]
  /\ db_records Unusual.db !! from (lit "_https://a.com")
     = Some [0xC3; 0xA9; 0x61]
  /\ toString [0xA9; 0x61] = 0xFFFD :: lit "a"
  /\ (run (NotStarted (readAll Unusual.parse (Ok Unusual.db) Unusual.url_sep))
        [CallNext]).1
     = [Called OpenDb;
        Called (DbIterator (from (lit "_https://a.com") ++ [0; 1] ++ from (lit "x"))
                  (from (lit "_https://a.com") ++ [0; 1] ++ from (lit "x") ++ [1]));
        Called IterNext;
        Settle (Yielded {| item_key := Some (lit "x"); item_value := lit "sep" |})]
  /\ (run (NotStarted (readAll Sample.parse (Ok Unusual.failing) (lit "https://a.com")))
        [CallNext]).1
     = [Called OpenDb;
        Called (DbIterator (from (lit "_https://a.com"))
                  (from (lit "_https://a.com") ++ [1]));
        Called IterNext; Called IterEnd; Called DbClose;
        Settle (Rejected StoreError)].
Proof. repeat split; vm_compute; reflexivity. Qed.

(** * The close that is not awaited *)



